(** * ExtendibleHashFile.hpp: directory, lookup and file life cycle

    A shallow embedding of the classes [ExtendibleHash<D>] and
    [ExtendibleHashFile<KeyType, RecordType, Greater, Index, global_depth>]
    of [src/ExtendibleHashFile.hpp], followed by the properties of the
    extendible-hash index that can be stated over it.

    Conventions.
    - [char] is a byte; a [std::string] and a [char] array are lists of
      bytes.  ['0'] is [x30], ['1'] is [x31].
    - [std::size_t] values are in [N], [long] values in [Z]; the places
      where the source wraps around or leaves the defined range are
      written out.
    - A call either returns, throws a [std::runtime_error], or has no
      defined behaviour (an index outside an array, a division by zero):
      the three cases of [outcome].
    - The disk is a finite map from file names to contents, with the
      directories that exist; the standard output is the list of the
      numbers printed so far.  An [open] fails where the file is
      missing, or, when it would create the file, where the directory
      is; access rights are not part of the model. *)

From stdpp Require Import gmap strings list fin_maps.
From Stdlib Require Import ZArith Lia.
From Stdlib.Strings Require Import Byte.

Local Open Scope Z_scope.

(** ** Characters and bytes *)

Abbreviation char := Byte.byte (only parsing).

#[global] Instance byte_eq_decision : EqDecision Byte.byte.
Proof.
  intros x y. destruct (Byte.eqb x y) eqn:E.
  - left. exact (Byte.byte_dec_bl x y E).
  - right. intros ->. rewrite (Byte.byte_dec_lb eq_refl) in E. discriminate E.
Defined.

Definition chr0 : char := x30.
Definition chr1 : char := x31.
Definition NUL : char := x00.

(** Little-endian value of a run of bytes, as [read] into an integer
    object leaves it on the platforms the source targets. *)
Fixpoint le_value (bs : list char) : Z :=
  match bs with
  | [] => 0
  | b :: bs' => Z.of_N (Byte.to_N b) + 256 * le_value bs'
  end.

(** The same eight bytes read as a [long]: two's complement. *)
Definition le_long (bs : list char) : Z :=
  let v := le_value bs in
  if 2 ^ 63 <=? v then v - 2 ^ 64 else v.

(** ** Outcomes of a call *)

Inductive exception : Type :=
  | runtime_error (what : string).

Inductive outcome (A : Type) : Type :=
  | Ok (a : A)
  | Throw (e : exception)
  | Undefined.
Arguments Ok {A} a.
Arguments Throw {A} e.
Arguments Undefined {A}.

Definition could_not_open : exception :=
  runtime_error "Could not open file.".
Definition corrupt_structure : exception :=
  runtime_error "Corrupt ExtendibleHashFile file structure.".
Definition sequence_not_found : exception :=
  runtime_error "Could not find given hash sequence on ExtendibleHash.".

(** [std::bitset<n>(v).to_string()]: [n] characters, most significant bit
    first; bit [i] of the set is bit [i] of [v]. *)
Definition bitset_to_string (n : nat) (v : Z) : list char :=
  (fun i : nat => if Z.testbit v (Z.of_nat (n - 1 - i)) then chr1 else chr0)
    <$> seq 0 n.

(** [s[pos]] on a [std::string]: the character, the terminating NUL at
    [pos = size()], nothing defined beyond. *)
Definition string_at (s : list char) (pos : nat) : option char :=
  if decide (pos = length s) then Some NUL else s !! pos.

(** ** The in-memory directory: [ExtendibleHashEntry<D>] and [ExtendibleHash<D>] *)

Module ExtendibleHash.

Record ExtendibleHashEntry : Type := {
  local_depth : N;            (* std::size_t local_depth *)
  sequence : list char;       (* char sequence[D + 1] *)
  bucket_ref : Z              (* long bucket_ref *)
}.

#[global] Instance entry_eq_decision : EqDecision ExtendibleHashEntry.
Proof. solve_decision. Defined.

(** The object is its one member, [hash_entries]. *)
Abbreviation t := (list ExtendibleHashEntry).

Section Directory.
Variable D : nat.

(** [ExtendibleHash()]: one entry, local depth 0, the sequence of [D]
    zeros copied with its terminator, bucket 0. *)
Definition create : t :=
  [ {| local_depth := 0;
       sequence := bitset_to_string D 0 ++ [NUL];
       bucket_ref := 0 |} ].

(** Layout of one entry in the index file: the eight bytes of
    [local_depth], the [D + 1] bytes of [sequence] padded to the
    alignment of [long], the eight bytes of [bucket_ref]. *)
Definition sequence_offset : nat := 8.
Definition bucket_ref_offset : nat := 8 + 8 * ((D + 1 + 7) / 8).
Definition sizeof_entry : nat := bucket_ref_offset + 8.

Definition unpack_entry (raw : list char) : ExtendibleHashEntry :=
  {| local_depth := Z.to_N (le_value (take 8 raw));
     sequence := take (D + 1) (drop sequence_offset raw);
     bucket_ref := le_long (take 8 (drop bucket_ref_offset raw)) |}.

(** The loop of [ExtendibleHash(std::fstream&)]: [buf.read] of one
    entry, pushed unless the read ran into the end of the buffer.  A
    trailing partial entry is dropped.  [fuel] bounds the number of
    iterations; the length of the buffer is enough. *)
Fixpoint unpack_entries (fuel : nat) (buf : list char) : t :=
  match fuel with
  | O => []
  | S fuel' =>
      if decide (sizeof_entry ≤ length buf)%nat
      then unpack_entry (take sizeof_entry buf)
             :: unpack_entries fuel' (drop sizeof_entry buf)
      else []
  end.

(** [ExtendibleHash(std::fstream &index_file)] on a file with the given
    contents: the whole file is read and unpacked. *)
Definition load (contents : list char) : t :=
  unpack_entries (length contents) contents.

(** [insert(const std::string&)]: the body is empty. *)
Definition insert (hash_sequence : list char) (hash_entries : t) : t :=
  hash_entries.

(** The inner loop of [lookup], from iteration [j] with [fuel]
    iterations left: [Some true] when the loop ends with [eq] still
    true, [Some false] on the [break], [None] when an index leaves its
    array ([D - 1 - j] wraps around once [j] reaches [D]). *)
Fixpoint compare_from (fuel j : nat) (hash_sequence sequence : list char)
  : option bool :=
  match fuel with
  | O => Some true
  | S fuel' =>
      if decide (j < D)%nat then
        match string_at hash_sequence (D - 1 - j), sequence !! (D - 1 - j)%nat with
        | Some a, Some b =>
            if decide (a ≠ b) then Some false
            else compare_from fuel' (S j) hash_sequence sequence
        | _, _ => None
        end
      else None
  end.

Definition entry_agrees (hash_sequence : list char) (entry : ExtendibleHashEntry)
  : option bool :=
  compare_from (N.to_nat (local_depth entry)) 0 hash_sequence (sequence entry).

(** [lookup]: the first entry that agrees decides. *)
Fixpoint lookup (hash_entries : t) (hash_sequence : list char) : outcome Z :=
  match hash_entries with
  | [] => Throw sequence_not_found
  | entry :: rest =>
      match entry_agrees hash_sequence entry with
      | Some true => Ok (bucket_ref entry)
      | Some false => lookup rest hash_sequence
      | None => Undefined
      end
  end.

(** *** The directory in the words of its specification

    The [d] low-order bits of a bit string written most significant
    bit first are its last [d] characters.  The prefix an entry owns is
    the low-order [local_depth] bits of its [sequence]; an entry
    matches a bit string whose low-order [local_depth] bits are that
    prefix. *)
Definition low_order (d : nat) (bits : list char) : list char :=
  drop (length bits - d) bits.

Definition prefix (entry : ExtendibleHashEntry) : list char :=
  low_order (N.to_nat (local_depth entry)) (take D (sequence entry)).

Definition matches (bits : list char) (entry : ExtendibleHashEntry) : Prop :=
  prefix entry = low_order (N.to_nat (local_depth entry)) bits.

#[global] Instance matches_dec bits entry : Decision (matches bits entry).
Proof. unfold matches. apply _. Defined.

(** A [D]-bit string: [D] characters, each ['0'] or ['1']. *)
Definition is_bit (c : char) : Prop := c = chr0 ∨ c = chr1.
Definition bit_string (bits : list char) : Prop :=
  length bits = D ∧ Forall is_bit bits.

(** The range of the fields: the local depth is within [0..D], the
    sequence is an array of [D + 1] characters. *)
Definition entry_in_range (entry : ExtendibleHashEntry) : Prop :=
  (local_depth entry ≤ N.of_nat D)%N ∧ length (sequence entry) = (D + 1)%nat.

(** Modelled from the spec: the source has no split operation (its
    only mutator, [insert], has an empty body).  Section 4.2 describes
    it: the entry whose bucket overflowed is replaced by two entries one
    level deeper, their prefixes the old prefix with the bit 0 and the
    bit 1 at the new, more significant position, each with a bucket
    reference of its own; no split at [local_depth = D]. *)
Definition split_child (bit : char) (ref : Z) (old_entry : ExtendibleHashEntry)
  : ExtendibleHashEntry :=
  {| local_depth := local_depth old_entry + 1;
     sequence := <[(D - 1 - N.to_nat (local_depth old_entry))%nat := bit]>
                   (sequence old_entry);
     bucket_ref := ref |}.

(** One change of the directory: the [insert] of the source, or the
    split of one entry; the directory is an unordered collection, so
    the two children may land anywhere. *)
Inductive step : t → t → Prop :=
  | step_insert hash_sequence hash_entries :
      step hash_entries (insert hash_sequence hash_entries)
  | step_split before old_entry after ref_a ref_b hash_entries' :
      (local_depth old_entry < N.of_nat D)%N →
      hash_entries' ≡ₚ split_child chr0 ref_a old_entry
                        :: split_child chr1 ref_b old_entry
                        :: before ++ after →
      step (before ++ old_entry :: after) hash_entries'.

Definition reachable (hash_entries : t) : Prop := rtc step create hash_entries.

(** Totality: every entry is in range and every [D]-bit string is
    matched by exactly one entry. *)
Definition total (hash_entries : t) : Prop :=
  Forall entry_in_range hash_entries ∧
  ∀ bits, bit_string bits →
    length (filter (matches bits) hash_entries) = 1%nat.

End Directory.

End ExtendibleHash.

(** ** The disk and the standard output *)

(** The directory part of a path: everything up to its last ['/'],
    nothing for a bare file name. *)
Definition slash : Ascii.ascii := Ascii.ascii_of_nat 47.

Fixpoint has_slash (path : string) : bool :=
  match path with
  | EmptyString => false
  | String c rest => bool_decide (c = slash) || has_slash rest
  end.

Fixpoint dirname (path : string) : string :=
  match path with
  | EmptyString => EmptyString
  | String c rest =>
      if has_slash path then String c (dirname rest) else EmptyString
  end.

(** [directories] lists the directories that exist without a file of
    [files] in them; a directory that holds a file exists as well, and
    so does the working directory, which a path without directory part
    names.  Paths are taken as written. *)
Record world : Type := {
  files : gmap string (list char);
  directories : gset string;
  console : list Z
}.

Definition with_files (fs : gmap string (list char)) (w : world) : world :=
  {| files := fs; directories := directories w; console := console w |}.

Definition cout (v : Z) (w : world) : world :=
  {| files := files w; directories := directories w;
     console := console w ++ [v] |}.

Definition directory_exists (w : world) (dir : string) : bool :=
  bool_decide (dir = EmptyString)
  || bool_decide (dir ∈ directories w)
  || existsb (λ entry, bool_decide (dirname entry.1 = dir))
       (map_to_list (files w)).

(** A file can be created, or opened for appending, where its directory
    exists. *)
Definition can_create (w : world) (name : string) : bool :=
  directory_exists w (dirname name).

Arguments directory_exists : simpl never.
Arguments can_create : simpl never.

Definition contents (w : world) (name : string) : list char :=
  default [] (files w !! name).

(** A file is there after [touch], with its contents if it was there
    before and empty otherwise. *)
Definition touch (name : string) (w : world) : world :=
  if decide (is_Some (files w !! name)) then w
  else with_files (<[name := []]> (files w)) w.

(** A file emptied, or created empty. *)
Definition truncate (name : string) (w : world) : world :=
  with_files (<[name := []]> (files w)) w.

(** ** The index over a data file: [ExtendibleHashFile] *)

Module ExtendibleHashFile.

Definition BLOCK_SIZE : nat := 1024.

(** A [std::fstream] member, as far as the class observes it: whether a
    file is attached, and whether an error flag is up (a stream in that
    state ignores [seekg] and [read]). *)
Record fstream : Type := {
  is_open : bool;
  failbit : bool
}.

Definition closed_stream : fstream := {| is_open := false; failbit := false |}.
Definition opened_stream : fstream := {| is_open := true; failbit := false |}.

Inductive member : Type := raw_file | index_file | hash_file.

Record t : Type := {
  raw_file_name : string;
  index_file_name : string;
  hash_file_name : string;
  raw_stream : fstream;
  index_stream : fstream;
  hash_stream : fstream;
  primary_key : bool;
  hash_index : ExtendibleHash.t
}.

Definition stream (f : member) (o : t) : fstream :=
  match f with
  | raw_file => raw_stream o
  | index_file => index_stream o
  | hash_file => hash_stream o
  end.

Definition name (f : member) (o : t) : string :=
  match f with
  | raw_file => raw_file_name o
  | index_file => index_file_name o
  | hash_file => hash_file_name o
  end.

Definition set_stream (f : member) (s : fstream) (o : t) : t :=
  {| raw_file_name := raw_file_name o;
     index_file_name := index_file_name o;
     hash_file_name := hash_file_name o;
     raw_stream := if f is raw_file then s else raw_stream o;
     index_stream := if f is index_file then s else index_stream o;
     hash_stream := if f is hash_file then s else hash_stream o;
     primary_key := primary_key o;
     hash_index := hash_index o |}.

Definition set_hash_index (d : ExtendibleHash.t) (o : t) : t :=
  {| raw_file_name := raw_file_name o;
     index_file_name := index_file_name o;
     hash_file_name := hash_file_name o;
     raw_stream := raw_stream o;
     index_stream := index_stream o;
     hash_stream := hash_stream o;
     primary_key := primary_key o;
     hash_index := d |}.

(** *** Member functions as state transformers

    A member function runs on the object and the world and leaves both
    behind, also when it throws. *)
Definition M (A : Type) : Type := t → world → outcome A * t * world.

#[global] Instance M_ret : MRet M := λ A a o w, (Ok a, o, w).

#[global] Instance M_bind : MBind M := λ A B k m o w,
  match m o w with
  | (Ok a, o', w') => k a o' w'
  | (Throw e, o', w') => (Throw e, o', w')
  | (Undefined, o', w') => (Undefined, o', w')
  end.

Definition throw {A} (e : exception) : M A := λ o w, (Throw e, o, w).

Definition lift {A} (r : outcome A) : M A := λ o w, (r, o, w).

(** [SAFE_FILE_OPEN(file, file_name, flags)].  [open] on a stream that is
    already open fails and raises the error flag, but [is_open()] stays
    true, so nothing is thrown.  With [in | out] the file has to exist;
    with [trunc] added it is emptied, or created where its directory
    exists.  An [open] that fails leaves the stream closed, and the
    macro throws. *)
Definition SAFE_FILE_OPEN (f : member) (trunc : bool) : M unit := λ o w,
  if is_open (stream f o)
  then (Ok (), set_stream f {| is_open := true; failbit := true |} o, w)
  else if trunc
  then
    if can_create w (name f o)
    then (Ok (), set_stream f opened_stream o, truncate (name f o) w)
    else (Throw could_not_open,
          set_stream f {| is_open := false; failbit := true |} o, w)
  else if decide (is_Some (files w !! name f o))
  then (Ok (), set_stream f opened_stream o, w)
  else (Throw could_not_open, set_stream f {| is_open := false; failbit := true |} o, w).

(** [SAFE_FILE_CREATE_IF_NOT_EXISTS(file, file_name)]: opening for
    appending creates a missing file and leaves an existing one as it
    is, and the stream is closed again; where the file cannot be opened
    (its directory is missing) nothing is created and the macro
    throws. *)
Definition SAFE_FILE_CREATE_IF_NOT_EXISTS (f : member) : M unit := λ o w,
  if is_open (stream f o)
  then (Ok (), set_stream f {| is_open := false; failbit := true |} o, w)
  else if can_create w (name f o)
  then (Ok (), set_stream f closed_stream o, touch (name f o) w)
  else (Throw could_not_open,
        set_stream f {| is_open := false; failbit := true |} o, w).

Definition close (f : member) : M unit := λ o w,
  (Ok (), set_stream f {| is_open := false; failbit := failbit (stream f o) |} o, w).

(** [file.peek() == traits_type::eof()]: nothing to read; finding the
    end raises a flag of the stream. *)
Definition peek_is_eof (f : member) : M bool := λ o w,
  if is_open (stream f o) && negb (failbit (stream f o))
     && negb (bool_decide (contents w (name f o) = []))
  then (Ok false, o, w)
  else (Ok true,
        set_stream f {| is_open := is_open (stream f o); failbit := true |} o, w).

(** What [read] delivers from position [pos] for a request of [n] bytes. *)
Definition read_at (w : world) (f : member) (pos : Z) (n : nat) (o : t) : list char :=
  if is_open (stream f o) && negb (failbit (stream f o)) && (0 <=? pos)
  then take n (drop (Z.to_nat pos) (contents w (name f o)))
  else [].

Definition gets {A} (f : t → A) : M A := λ o w, (Ok (f o), o, w).
Definition modify (f : t → t) : M unit := λ o w, (Ok (), f o, w).
Definition skip : M unit := mret ().
Definition effect (f : world → world) : M unit := λ o w, (Ok (), o, f w).

Section Index.
(** The template parameters.  [RecordType] is a fixed-size plain
    object, seen through its bytes; [Index] takes a record to its key;
    [std::hash<KeyType>] is left open ([Greater] is stored by the class
    and never called). *)
Variable KeyType : Type.
Variable sizeof_RecordType : positive.
Variable index : list char → KeyType.
Variable hash_function : KeyType → Z.
Variable global_depth : nat.

Definition RecordType : Type := list char.
Definition record_size : nat := Pos.to_nat sizeof_RecordType.

(** [(BLOCK_SIZE - 2 * sizeof(long)) / sizeof(RecordType)] *)
Definition MAX_RECORDS_PER_BUCKET : nat := (BLOCK_SIZE - 2 * 8) / record_size.

Record Bucket : Type := {
  size : Z;                  (* long size = 0 *)
  records : list RecordType; (* RecordType records[MAX_RECORDS_PER_BUCKET] *)
  next : Z                   (* long next = -1 *)
}.

(** Layout of a bucket, for a record type aligned no more strictly
    than [long]. *)
Definition records_offset : nat := 8.
Definition next_offset : nat :=
  8 * ((records_offset + MAX_RECORDS_PER_BUCKET * record_size + 7) / 8).
Definition sizeof_Bucket : nat := next_offset + 8.

(** The bytes of [Bucket<RecordType> bucket{}]. *)
Definition Bucket_init_bytes : list char :=
  replicate next_offset x00 ++ replicate 8 xff.

Fixpoint slots (n : nat) (bs : list char) : list RecordType :=
  match n with
  | O => []
  | S n' => take record_size bs :: slots n' (drop record_size bs)
  end.

Definition Bucket_of_bytes (bs : list char) : Bucket :=
  {| size := le_long (take 8 bs);
     records := slots MAX_RECORDS_PER_BUCKET (drop records_offset bs);
     next := le_long (take 8 (drop next_offset bs)) |}.

(** [SEEK_ALL(file, pos)] then [file.read] of [BLOCK_SIZE] bytes into
    a fresh [bucket{}]: the bytes delivered overwrite the start of
    the object.  More bytes than the object has run past its end. *)
Definition read_bucket (f : member) (pos : Z) : M Bucket := λ o w,
  let got := read_at w f pos BLOCK_SIZE o in
  let short := bool_decide (length got < BLOCK_SIZE)%nat in
  let o' := set_stream f {| is_open := is_open (stream f o);
                            failbit := failbit (stream f o) || short |} o in
  if decide (length got ≤ sizeof_Bucket)%nat
  then (Ok (Bucket_of_bytes (got ++ drop (length got) Bucket_init_bytes)), o', w)
  else (Undefined, o', w).

(** [std::bitset<global_depth>(hash_function(key) % global_depth).to_string()] *)
Definition hash_sequence (key : KeyType) : outcome (list char) :=
  if decide (global_depth = 0%nat) then Undefined
  else Ok (bitset_to_string global_depth
             ((hash_function key mod 2 ^ 64) mod Z.of_nat global_depth)).

(** [search(KeyType key)] *)
Definition search (key : KeyType) : M (list RecordType) :=
  let result : list RecordType := [] in
  SAFE_FILE_OPEN raw_file false;;
  hash_sequence ← lift (hash_sequence key);
  directory ← gets hash_index;
  bucket_ref ← lift (ExtendibleHash.lookup global_depth directory hash_sequence);
  bucket ← read_bucket raw_file bucket_ref;
  close raw_file;;
  mret result.

(** [insert(RecordType &record)] *)
Definition insert (record : RecordType) : M unit :=
  SAFE_FILE_OPEN hash_file false;;
  hash_sequence ← lift (hash_sequence (index record));
  directory ← gets hash_index;
  bucket_ref ← lift (ExtendibleHash.lookup global_depth directory hash_sequence);
  effect (cout bucket_ref);;
  (* Insert record into bucket bucket_ref of the data file *)
  close hash_file.

(** The replay loop of the constructor, reading the data file from
    [pos]: a record is inserted when it was read in full. *)
Fixpoint replay (fuel pos : nat) : M unit :=
  match fuel with
  | O => mret ()
  | S fuel' => λ o w,
      let rest := drop pos (contents w (raw_file_name o)) in
      if decide (record_size ≤ length rest)%nat
      then (insert (take record_size rest);; replay fuel' (pos + record_size)%nat) o w
      else (Ok (), o, w)
  end.

(** The whole [while (!raw_file.eof())] loop: the length of the file
    bounds the number of reads. *)
Definition replay_all : M unit := λ o w,
  replay (S (length (contents w (raw_file_name o)))) 0 o w.

(** [hash_index = new ExtendibleHash<global_depth>{index_file}] *)
Definition load_hash_index : M unit := λ o w,
  modify (set_hash_index
            (ExtendibleHash.load global_depth (contents w (index_file_name o))))
         o w.

(** The object before the body of the constructor runs. *)
Definition blank (fileName : string) (primaryKey : bool) : t :=
  {| raw_file_name := fileName;
     index_file_name := fileName +:+ "_index.ehashind";
     hash_file_name := fileName +:+ ".ehash";
     raw_stream := closed_stream;
     index_stream := closed_stream;
     hash_stream := closed_stream;
     primary_key := primaryKey;
     hash_index := [] |}.

Definition constructor_body : M unit :=
  SAFE_FILE_CREATE_IF_NOT_EXISTS hash_file;;
  SAFE_FILE_CREATE_IF_NOT_EXISTS index_file;;
  SAFE_FILE_OPEN index_file false;;
  SAFE_FILE_OPEN hash_file false;;
  index_eof ← peek_is_eof index_file;
  hash_eof ← (if index_eof then peek_is_eof hash_file else mret false : M bool);
  if index_eof && hash_eof then
    close hash_file;;
    SAFE_FILE_OPEN raw_file false;;
    modify (set_hash_index (ExtendibleHash.create global_depth));;
    raw_eof ← peek_is_eof raw_file;
    (if (raw_eof : bool) then skip else replay_all);;
    close raw_file;;
    close index_file
  else
    index_eof' ← peek_is_eof index_file;
    hash_eof' ← (if index_eof' then peek_is_eof hash_file else mret true : M bool);
    if negb index_eof' || negb hash_eof' then
      close hash_file;;
      close index_file;;
      throw corrupt_structure
    else
      close hash_file;;
      load_hash_index;;
      close index_file.

(** [ExtendibleHashFile(fileName, primaryKey, index, greater)]: an
    object exists only when the body returns. *)
Definition new (fileName : string) (primaryKey : bool) (w : world)
  : outcome t * world :=
  match constructor_body (blank fileName primaryKey) w with
  | (Ok _, o, w') => (Ok o, w')
  | (Throw e, _, w') => (Throw e, w')
  | (Undefined, _, w') => (Undefined, w')
  end.

(** [~ExtendibleHashFile()].  The body as written is ill-formed:
    [index_file.write()] names no buffer and no length (and lacks its
    semicolon), so the source has no code that serializes the
    directory.  What is kept here is what its well-formed statements
    do: the index file is opened with [trunc], and no byte follows.
    [delete hash_index] ends the life of the directory with the object:
    [delete] below returns no object. *)
Definition destructor_body : M unit :=
  SAFE_FILE_OPEN index_file true;;
  mret ().

Definition delete (o : t) (w : world) : outcome unit * world :=
  match destructor_body o w with
  | (r, _, w') => (r, w')
  end.

(** A caller's view of the live object: calls in sequence, each
    outcome recorded; a thrown exception is the caller's to catch, and
    nothing is said of what follows a call without defined behaviour. *)
Inductive call : Type :=
  | call_search (key : KeyType)
  | call_insert (record : RecordType).

Inductive reply : Type :=
  | reply_search (r : outcome (list RecordType))
  | reply_insert (r : outcome unit).

Definition reply_defined (r : reply) : bool :=
  match r with
  | reply_search Undefined | reply_insert Undefined => false
  | _ => true
  end.

Definition run_call (c : call) (o : t) (w : world) : reply * t * world :=
  match c with
  | call_search key =>
      match search key o w with (r, o', w') => (reply_search r, o', w') end
  | call_insert record =>
      match insert record o w with (r, o', w') => (reply_insert r, o', w') end
  end.

Fixpoint run_calls (cs : list call) (o : t) (w : world)
  : list reply * t * world :=
  match cs with
  | [] => ([], o, w)
  | c :: cs' =>
      match run_call c o w with
      | (r, o', w') =>
          if reply_defined r then
            match run_calls cs' o' w' with
            | (rs, o'', w'') => (r :: rs, o'', w'')
            end
          else ([r], o', w')
      end
  end.

End Index.

End ExtendibleHashFile.

(** ** A concrete index

    One-byte records keyed by their value, integer keys that hash to
    themselves, an address space of four bits, and a data file named
    [data]. *)

Module Scenario.

Definition key_of (record : list char) : Z := le_value record.
Definition hash_of (key : Z) : Z := key.
Definition depth : nat := 4.
Definition record_bytes : positive := 1.

Definition new : string → bool → world → outcome ExtendibleHashFile.t * world :=
  ExtendibleHashFile.new Z record_bytes key_of hash_of depth.
Definition insert : list char → ExtendibleHashFile.M unit :=
  ExtendibleHashFile.insert Z key_of hash_of depth.
Definition search : Z → ExtendibleHashFile.M (list (list char)) :=
  ExtendibleHashFile.search Z record_bytes hash_of depth.

(** The one entry [ExtendibleHash()] makes, as it lies in an index file. *)
Definition first_entry_bytes : list char :=
  replicate 8 x00 ++ [x30; x30; x30; x30; x00] ++ replicate 3 x00
    ++ replicate 8 x00.

(** No file, and no directory but the working directory. *)
Definition empty_tree : world :=
  {| files := ∅; directories := ∅; console := [] |}.

(** An empty data file and nothing else. *)
Definition empty_dataset : world :=
  {| files := {[ "data" := [] ]}; directories := ∅; console := [] |}.

(** A data file whose first bytes read as a bucket: [size = 1], then the
    record [x2a]. *)
Definition bucket_shaped_dataset : world :=
  {| files := {[ "data" := [x01; x00; x00; x00; x00; x00; x00; x00; x2a] ]};
     directories := ∅; console := [] |}.

(** An index as a completed run would leave it: a directory file with
    one entry and a bucket file with one empty bucket. *)
Definition stored_index : world :=
  {| files := <[ "data_index.ehashind" := first_entry_bytes ]>
              (<[ "data.ehash" :=
                    ExtendibleHashFile.Bucket_init_bytes record_bytes ]>
               {[ "data" := [] ]});
     directories := ∅; console := [] |}.

(** A directory file with one entry beside an empty bucket file. *)
Definition half_index : world :=
  {| files := <[ "data_index.ehashind" := first_entry_bytes ]>
              (<[ "data.ehash" := [] ]> {[ "data" := [] ]});
     directories := ∅; console := [] |}.

(** A directory file with one entry and no bucket file at all. *)
Definition half_index_without_bucket_file : world :=
  {| files := <[ "data_index.ehashind" := first_entry_bytes ]>
              {[ "data" := [] ]};
     directories := ∅; console := [] |}.

(** A directory after one split of the first entry. *)
Definition first_entry : ExtendibleHash.ExtendibleHashEntry :=
  {| ExtendibleHash.local_depth := 0;
     ExtendibleHash.sequence := bitset_to_string depth 0 ++ [NUL];
     ExtendibleHash.bucket_ref := 0 |}.

Definition split_once : ExtendibleHash.t :=
  [ ExtendibleHash.split_child depth chr0 1024 first_entry;
    ExtendibleHash.split_child depth chr1 2048 first_entry ].

End Scenario.

(** * Properties *)

(** ** Bit strings *)

Example bitset_to_string_5 : bitset_to_string 4 5 = [x30; x31; x30; x31].
Proof. reflexivity. Qed.

Example bitset_to_string_keeps_low_bits :
  bitset_to_string 4 21 = bitset_to_string 4 5.
Proof. reflexivity. Qed.

Example le_long_minus_one : le_long (replicate 8 xff) = -1.
Proof. reflexivity. Qed.

(** ** The directory *)

Section DirectoryFacts.
Import ExtendibleHash.
Variable D : nat.

Lemma low_order_lookup (d : nat) (bits : list char) (i : nat) :
  low_order d bits !! i = bits !! (length bits - d + i)%nat.
Proof. unfold low_order. apply lookup_drop. Qed.

(** Matching, position by position from the least significant end. *)
Lemma matches_pointwise (bits : list char) (entry : ExtendibleHashEntry) :
  length bits = D → entry_in_range D entry →
  matches D bits entry ↔
  ∀ j : nat, (j < N.to_nat (local_depth entry))%nat →
      sequence entry !! (D - 1 - j)%nat = bits !! (D - 1 - j)%nat.
Proof.
  intros Hb [Hd Hs]. unfold matches, prefix.
  set (d := N.to_nat (local_depth entry)).
  assert (d ≤ D)%nat as Hle by lia.
  assert (length (take D (sequence entry)) = D) as Ht
      by (rewrite length_take; lia).
  split.
  - intros Heq j Hj.
    assert (low_order d (take D (sequence entry)) !! (d - 1 - j)%nat
            = low_order d bits !! (d - 1 - j)%nat) as Hl by (by rewrite Heq).
    rewrite !low_order_lookup, Ht, Hb in Hl.
    replace (D - d + (d - 1 - j))%nat with (D - 1 - j)%nat in Hl by lia.
    rewrite lookup_take_lt in Hl by lia. done.
  - intros Hpt. apply list_eq. intros i.
    rewrite !low_order_lookup, Ht, Hb.
    destruct (decide (i < d)%nat) as [Hi|Hi].
    + rewrite lookup_take_lt by lia.
      specialize (Hpt (d - 1 - i)%nat ltac:(lia)).
      replace (D - 1 - (d - 1 - i))%nat with (D - d + i)%nat in Hpt by lia.
      done.
    + rewrite !lookup_ge_None_2; [done | lia | lia].
Qed.

Lemma compare_from_spec (fuel j : nat) (hash_sequence seq : list char) :
  length hash_sequence = D → length seq = (D + 1)%nat → (j + fuel ≤ D)%nat →
  ∃ b : bool,
    compare_from D fuel j hash_sequence seq = Some b ∧
    (b = true ↔ ∀ i : nat, (j ≤ i < j + fuel)%nat →
                   seq !! (D - 1 - i)%nat = hash_sequence !! (D - 1 - i)%nat).
Proof.
  intros Hh Hs. revert j. induction fuel as [|fuel IH]; intros j Hj; simpl.
  - exists true. split; [done|]. split; [|done]. intros _ i Hi. lia.
  - rewrite decide_True by lia.
    unfold string_at. rewrite decide_False by lia.
    destruct (lookup_lt_is_Some_2 hash_sequence (D - 1 - j)%nat ltac:(lia)) as [a Ha].
    destruct (lookup_lt_is_Some_2 seq (D - 1 - j)%nat ltac:(lia)) as [b Hb].
    rewrite Ha, Hb. destruct (decide (a ≠ b)) as [Hne|Heq].
    + exists false. split; [done|]. split; [done|]. intros Hall.
      specialize (Hall j ltac:(lia)). congruence.
    + apply dec_stable in Heq. subst b.
      destruct (IH (S j) ltac:(lia)) as (r & Hr & Hiff).
      exists r. split; [done|]. rewrite Hiff. split.
      * intros Hall i Hi. destruct (decide (i = j)) as [->|]; [congruence|].
        apply Hall. lia.
      * intros Hall i Hi. apply Hall. lia.
Qed.

Lemma entry_agrees_matches (bits : list char) (entry : ExtendibleHashEntry) :
  length bits = D → entry_in_range D entry →
  entry_agrees D bits entry = Some (bool_decide (matches D bits entry)).
Proof.
  intros Hb Hr. pose proof Hr as [Hd Hs]. unfold entry_agrees.
  destruct (compare_from_spec (N.to_nat (local_depth entry)) 0 bits
              (sequence entry) Hb Hs ltac:(lia)) as (b & -> & Hiff).
  f_equal. symmetry. destruct b.
  - apply bool_decide_eq_true. apply matches_pointwise; [done..|].
    intros j Hj. apply Hiff; [done | lia].
  - apply bool_decide_eq_false. intros Hm.
    assert (false = true) by (apply Hiff; intros i Hi;
      eapply matches_pointwise; [done.. | lia]).
    done.
Qed.

(** [lookup] is the first match of the scan, or the exception. *)
Lemma lookup_first_match (hash_entries : t) (bits : list char) :
  length bits = D → Forall (entry_in_range D) hash_entries →
  lookup D hash_entries bits =
    match filter (matches D bits) hash_entries with
    | entry :: _ => Ok (bucket_ref entry)
    | [] => Throw sequence_not_found
    end.
Proof.
  intros Hb Hall. induction Hall as [|entry rest Hr Hrest IH]; [done|].
  rewrite filter_cons. cbn [lookup]. rewrite entry_agrees_matches by done.
  case_bool_decide as Hm.
  - by rewrite decide_True.
  - by rewrite decide_False.
Qed.

Lemma lookup_defined (hash_entries : t) (bits : list char) :
  length bits = D → Forall (entry_in_range D) hash_entries →
  lookup D hash_entries bits ≠ Undefined.
Proof. intros Hb Hall. rewrite lookup_first_match by done. by case_match. Qed.

(** C5.  For a string of [D] characters and a directory whose entries
    are in range, [lookup] returns the bucket reference of the first
    entry whose prefix is the low-order [local_depth] bits of the string,
    and throws exactly when no entry matches; one of the two happens. *)
Theorem lookup_returns_first_matching_entry (hash_entries : t) (bits : list char) :
  length bits = D → Forall (entry_in_range D) hash_entries →
  (∀ ref, lookup D hash_entries bits = Ok ref →
     ∃ before entry after,
       hash_entries = before ++ entry :: after ∧
       Forall (λ e, ¬ matches D bits e) before ∧
       matches D bits entry ∧ bucket_ref entry = ref) ∧
  (lookup D hash_entries bits = Throw sequence_not_found ↔
     Forall (λ e, ¬ matches D bits e) hash_entries) ∧
  ((∃ ref, lookup D hash_entries bits = Ok ref) ∨
   lookup D hash_entries bits = Throw sequence_not_found).
Proof.
  intros Hb Hall. induction Hall as [|entry rest Hr Hrest IH].
  - split_and!; [done | | by right]. split; [by constructor | done].
  - destruct IH as (IHok & IHthrow & IHtotal).
    cbn [lookup]. rewrite entry_agrees_matches by done.
    case_bool_decide as Hm.
    + split_and!.
      * intros ref [= <-]. by exists [], entry, rest.
      * split; [done|]. intros Hno. by apply Forall_cons_1 in Hno as [? _].
      * left. by eexists.
    + split_and!.
      * intros ref Href.
        destruct (IHok ref Href) as (before & e & after & -> & Hbefore & He & <-).
        exists (entry :: before), e, after. split_and!; [done | by constructor | done..].
      * rewrite IHthrow. split; [by constructor|].
        intros Hno. by apply Forall_cons_1 in Hno as [_ ?].
      * done.
Qed.

(** *** Totality of the partition *)

Lemma bitset_to_string_length (n : nat) (v : Z) :
  length (bitset_to_string n v) = n.
Proof. unfold bitset_to_string. by rewrite length_fmap, length_seq. Qed.

Lemma create_total : total D (create D).
Proof.
  split.
  - constructor; [|done]. split; simpl; [lia|].
    rewrite length_app, bitset_to_string_length. simpl. lia.
  - intros bits _. unfold create. rewrite filter_cons, decide_True; [done|].
    unfold matches, prefix, low_order. simpl.
    rewrite !Nat.sub_0_r, !drop_all. done.
Qed.

Lemma split_child_in_range (bit : char) (ref : Z) (entry : ExtendibleHashEntry) :
  entry_in_range D entry → (local_depth entry < N.of_nat D)%N →
  entry_in_range D (split_child D bit ref entry).
Proof.
  intros [Hd Hs] Hlt. split; simpl; [lia|]. by rewrite length_insert.
Qed.

Lemma split_child_matches (bit : char) (ref : Z) (bits : list char)
      (entry : ExtendibleHashEntry) :
  length bits = D → entry_in_range D entry →
  (local_depth entry < N.of_nat D)%N →
  matches D bits (split_child D bit ref entry) ↔
  matches D bits entry ∧
  bits !! (D - 1 - N.to_nat (local_depth entry))%nat = Some bit.
Proof.
  intros Hb Hr Hlt. pose proof Hr as [Hd Hs].
  rewrite !matches_pointwise by auto using split_child_in_range.
  simpl. set (d := N.to_nat (local_depth entry)).
  replace (N.to_nat (local_depth entry + 1)) with (S d) by lia.
  split.
  - intros Hall. split.
    + intros j Hj. rewrite <- Hall by lia.
      rewrite list_lookup_insert_ne by lia. done.
    + rewrite <- Hall by lia. apply list_lookup_insert_eq. lia.
  - intros [Hall Hbit] j Hj. destruct (decide (j = d)) as [->|Hne].
    + rewrite list_lookup_insert_eq by lia. done.
    + rewrite list_lookup_insert_ne by lia. apply Hall. lia.
Qed.

Lemma bit_string_lookup (bits : list char) (i : nat) :
  bit_string D bits → (i < D)%nat →
  bits !! i = Some chr0 ∨ bits !! i = Some chr1.
Proof.
  intros [Hlen Hall] Hi.
  destruct (lookup_lt_is_Some_2 bits i ltac:(lia)) as [c Hc].
  rewrite Forall_lookup in Hall. destruct (Hall i c Hc) as [-> | ->]; auto.
Qed.

(** The two children of a split match exactly the bit strings their
    parent matched, each string by one child. *)
Lemma split_children_count (bits : list char) (old : ExtendibleHashEntry)
      (ref_a ref_b : Z) :
  bit_string D bits → entry_in_range D old →
  (local_depth old < N.of_nat D)%N →
  length (filter (matches D bits)
            [split_child D chr0 ref_a old; split_child D chr1 ref_b old]) =
  length (filter (matches D bits) [old]).
Proof.
  intros Hbits Hold Hlt. pose proof Hbits as [Hlen _].
  pose proof (split_child_matches chr0 ref_a bits old Hlen Hold Hlt) as Hzero.
  pose proof (split_child_matches chr1 ref_b bits old Hlen Hold Hlt) as Hone.
  assert (chr0 ≠ chr1) as Hne by done.
  rewrite !filter_cons, filter_nil.
  destruct (bit_string_lookup bits (D - 1 - N.to_nat (local_depth old))%nat
              Hbits ltac:(lia)) as [Hbit|Hbit];
    rewrite Hbit in Hzero, Hone;
    destruct (decide (matches D bits old));
    destruct (decide (matches D bits (split_child D chr0 ref_a old)));
    destruct (decide (matches D bits (split_child D chr1 ref_b old)));
    simpl; try done; exfalso; intuition congruence.
Qed.

Lemma step_total (hash_entries hash_entries' : t) :
  step D hash_entries hash_entries' → total D hash_entries → total D hash_entries'.
Proof.
  intros Hstep [Hrange Hone].
  destruct Hstep as [|before old after ref_a ref_b hash_entries' Hlt Hperm]; [done|].
  apply Forall_app in Hrange as [Hbefore Hrest].
  apply Forall_cons_1 in Hrest as [Hold Hafter].
  split.
  - rewrite Hperm. repeat apply Forall_cons_2;
      [by apply split_child_in_range.. | by apply Forall_app].
  - intros bits Hbits. specialize (Hone bits Hbits).
    pose proof (split_children_count bits old ref_a ref_b Hbits Hold Hlt) as Hkids.
    rewrite Hperm.
    change (?a :: ?b :: before ++ after) with ([a; b] ++ before ++ after).
    revert Hone Hkids.
    rewrite (filter_app _ before), (filter_app _ [_; _]), (filter_app _ before after).
    rewrite (filter_cons _ old after), (filter_cons _ old []), filter_nil.
    rewrite !length_app. case_decide; simpl; rewrite ?length_app; simpl; lia.
Qed.

Lemma reachable_is_total (hash_entries : t) :
  reachable D hash_entries → total D hash_entries.
Proof.
  revert hash_entries. apply (rtc_ind_r (total D) (create D)).
  - apply create_total.
  - intros earlier later _ Hstep Hearlier. by eapply step_total.
Qed.

(** C6.  In every directory reached from the one-entry directory by
    [insert] and by splits, a [D]-bit string is matched by exactly one
    entry, and [lookup] returns that entry's bucket reference. *)
Theorem reachable_lookup_total (hash_entries : t) (bits : list char) :
  reachable D hash_entries → bit_string D bits →
  ∃ entry, filter (matches D bits) hash_entries = [entry] ∧
           lookup D hash_entries bits = Ok (bucket_ref entry).
Proof.
  intros Hreach Hbits. destruct (reachable_is_total _ Hreach) as [Hrange Hone].
  specialize (Hone bits Hbits). pose proof Hbits as [Hlen _].
  rewrite lookup_first_match by done.
  destruct (filter (matches D bits) hash_entries) as [|entry [|??]]; try done.
  by exists entry.
Qed.
End DirectoryFacts.

Lemma split_once_in_range :
  Forall (ExtendibleHash.entry_in_range Scenario.depth) Scenario.split_once.
Proof. repeat apply Forall_cons_2; [by split.. | apply Forall_nil_2]. Qed.

Lemma lookup_returns_first_matching_entry_witness :
  (∀ ref,
     ExtendibleHash.lookup Scenario.depth Scenario.split_once
       [x30; x31; x30; x31] = Ok ref →
     ∃ before entry after,
       Scenario.split_once = before ++ entry :: after ∧
       Forall (λ e, ¬ ExtendibleHash.matches Scenario.depth
                        [x30; x31; x30; x31] e) before ∧
       ExtendibleHash.matches Scenario.depth [x30; x31; x30; x31] entry ∧
       ExtendibleHash.bucket_ref entry = ref) ∧
  (ExtendibleHash.lookup Scenario.depth Scenario.split_once
     [x30; x31; x30; x31] = Throw sequence_not_found ↔
   Forall (λ e, ¬ ExtendibleHash.matches Scenario.depth
                    [x30; x31; x30; x31] e) Scenario.split_once) ∧
  ((∃ ref, ExtendibleHash.lookup Scenario.depth Scenario.split_once
             [x30; x31; x30; x31] = Ok ref) ∨
   ExtendibleHash.lookup Scenario.depth Scenario.split_once
     [x30; x31; x30; x31] = Throw sequence_not_found).
Proof.
  apply (lookup_returns_first_matching_entry Scenario.depth Scenario.split_once
           [x30; x31; x30; x31]).
  - reflexivity.
  - exact split_once_in_range.
Defined.

Lemma split_once_reachable :
  ExtendibleHash.reachable Scenario.depth Scenario.split_once.
Proof.
  eapply rtc_l; [|apply rtc_refl].
  by apply (ExtendibleHash.step_split Scenario.depth [] Scenario.first_entry []
              1024 2048).
Qed.

Lemma reachable_lookup_total_witness :
  ∃ entry,
    filter (ExtendibleHash.matches Scenario.depth [x30; x31; x30; x31])
      Scenario.split_once = [entry] ∧
    ExtendibleHash.lookup Scenario.depth Scenario.split_once
      [x30; x31; x30; x31] = Ok (ExtendibleHash.bucket_ref entry).
Proof.
  apply (reachable_lookup_total Scenario.depth Scenario.split_once
           [x30; x31; x30; x31]).
  - exact split_once_reachable.
  - split; [reflexivity|].
    repeat apply Forall_cons_2; [by left | by right | by left | by right | done].
Defined.

(** ** File names *)
Lemma append_ne_self (s x : string) : x ≠ EmptyString → s ≠ s +:+ x.
Proof.
  intros Hx. induction s as [|c s IH].
  - change (EmptyString +:+ x) with x. congruence.
  - change (String c s +:+ x) with (String c (s +:+ x)). congruence.
Qed.

Lemma data_file_not_hash_file (fileName : string) :
  fileName +:+ ".ehash" ≠ fileName.
Proof. intros H. by apply (append_ne_self fileName ".ehash"). Qed.

Lemma data_file_not_index_file (fileName : string) :
  fileName +:+ "_index.ehashind" ≠ fileName.
Proof. intros H. by apply (append_ne_self fileName "_index.ehashind"). Qed.

Lemma hash_file_not_index_file (fileName : string) :
  fileName +:+ ".ehash" ≠ fileName +:+ "_index.ehashind".
Proof. intros H%(inj (String.append fileName)). discriminate H. Qed.

(** ** The world *)
Lemma contents_touch (n n' : string) (w : world) :
  contents (touch n w) n' = contents w n'.
Proof.
  unfold touch, contents. case_decide as Hs; [done|]. simpl.
  destruct (decide (n = n')) as [->|Hne].
  - rewrite lookup_insert_eq. apply eq_None_not_Some in Hs. by rewrite Hs.
  - by rewrite lookup_insert_ne.
Qed.

Lemma touch_is_Some (n : string) (w : world) : is_Some (files (touch n w) !! n).
Proof.
  unfold touch. case_decide; [done|]. simpl. rewrite lookup_insert_eq. by eexists.
Qed.

Lemma touch_lookup_ne (n n' : string) (w : world) :
  n ≠ n' → files (touch n w) !! n' = files w !! n'.
Proof.
  intros Hne. unfold touch. case_decide; [done|]. simpl. by rewrite lookup_insert_ne.
Qed.

Lemma touch_preserves_is_Some (n n' : string) (w : world) :
  is_Some (files w !! n') → is_Some (files (touch n w) !! n').
Proof.
  intros Hs. destruct (decide (n = n')) as [->|Hne].
  - apply touch_is_Some.
  - by rewrite touch_lookup_ne.
Qed.

Lemma touch_existing (n : string) (w : world) :
  is_Some (files w !! n) → touch n w = w.
Proof. intros Hs. unfold touch. by rewrite decide_True. Qed.

Lemma touch_console (n : string) (w : world) : console (touch n w) = console w.
Proof. unfold touch. by case_decide. Qed.

Lemma touch_missing (n : string) (w : world) :
  files w !! n = None → files (touch n w) !! n = Some [].
Proof.
  intros Hnone. unfold touch. rewrite decide_False by (rewrite Hnone; by intros [??]).
  cbn. apply lookup_insert_eq.
Qed.

Lemma touch_directories (n : string) (w : world) :
  directories (touch n w) = directories w.
Proof. unfold touch. by case_decide. Qed.

Lemma nonempty_contents_is_Some (w : world) (n : string) :
  contents w n ≠ [] → is_Some (files w !! n).
Proof. unfold contents. destruct (files w !! n); [by eexists | done]. Qed.

(** ** Directories *)
Lemma has_slash_app (s x : string) :
  has_slash (s +:+ x) = has_slash s || has_slash x.
Proof.
  induction s as [|c s IH]; [done|].
  change (String c s +:+ x) with (String c (s +:+ x)).
  cbn [has_slash]. by rewrite IH, orb_assoc.
Qed.

Lemma dirname_no_slash (x : string) :
  has_slash x = false → dirname x = EmptyString.
Proof. destruct x as [|c x]; [done|]. cbn [dirname]. by intros ->. Qed.

Lemma dirname_app (s x : string) :
  has_slash x = false → dirname (s +:+ x) = dirname s.
Proof.
  intros Hx. induction s as [|c s IH].
  - change (EmptyString +:+ x) with x. by rewrite dirname_no_slash.
  - change (String c s +:+ x) with (String c (s +:+ x)).
    cbn [dirname]. rewrite IH.
    change (has_slash (String c (s +:+ x)))
      with (bool_decide (c = slash) || has_slash (s +:+ x)).
    change (has_slash (String c s))
      with (bool_decide (c = slash) || has_slash s).
    by rewrite has_slash_app, Hx, orb_false_r.
Qed.

Lemma dirname_hash_file (fileName : string) :
  dirname (fileName +:+ ".ehash") = dirname fileName.
Proof. by apply dirname_app. Qed.

Lemma dirname_index_file (fileName : string) :
  dirname (fileName +:+ "_index.ehashind") = dirname fileName.
Proof. by apply dirname_app. Qed.

Lemma directory_exists_spec (w : world) (dir : string) :
  directory_exists w dir = true ↔
  dir = EmptyString ∨ dir ∈ directories w ∨
  ∃ n, is_Some (files w !! n) ∧ dirname n = dir.
Proof.
  unfold directory_exists.
  rewrite !orb_true_iff, !bool_decide_eq_true, existsb_exists.
  split; (intros [[H|H]|H] || intros [H|[H|H]]); [tauto | tauto | | tauto | tauto |].
  - destruct H as ([n c] & Hin & Heq).
    apply list_elem_of_In, elem_of_map_to_list in Hin.
    apply bool_decide_eq_true in Heq. right. right.
    exists n. split; [by exists c | done].
  - destruct H as (n & [c Hc] & Heq). right. exists (n, c). split.
    + by apply list_elem_of_In, elem_of_map_to_list.
    + by apply bool_decide_eq_true.
Qed.

(** The directory of a file that exists, exists. *)
Lemma file_in_directory (w : world) (n : string) :
  is_Some (files w !! n) → directory_exists w (dirname n) = true.
Proof. intros Hs. apply directory_exists_spec. right. right. by exists n. Qed.

Lemma missing_directory_no_file (w : world) (n : string) :
  directory_exists w (dirname n) = false → files w !! n = None.
Proof.
  intros Hdir. apply eq_None_not_Some. intros Hs%file_in_directory. congruence.
Qed.

Lemma directory_exists_touch (n : string) (w : world) (dir : string) :
  directory_exists w dir = true → directory_exists (touch n w) dir = true.
Proof.
  rewrite !directory_exists_spec. intros [H|[H|(m & Hm & Heq)]].
  - by left.
  - right. left. by rewrite touch_directories.
  - right. right. exists m. split; [by apply touch_preserves_is_Some | done].
Qed.

Create HintDb disk.
#[local] Hint Resolve touch_is_Some touch_preserves_is_Some
  data_file_not_hash_file data_file_not_index_file hash_file_not_index_file
  : disk.

(** The first four statements of the constructor and its first [peek],
    where the directory of the data file exists: both index files are
    there afterwards, with the contents they had. *)
Ltac open_both_files Hdir :=
  unfold ExtendibleHashFile.new, ExtendibleHashFile.constructor_body;
  unfold mbind, ExtendibleHashFile.M_bind,
    ExtendibleHashFile.SAFE_FILE_CREATE_IF_NOT_EXISTS,
    ExtendibleHashFile.SAFE_FILE_OPEN;
  cbn;
  unfold can_create;
  rewrite dirname_hash_file, Hdir; cbn;
  rewrite dirname_index_file, (directory_exists_touch _ _ _ Hdir); cbn;
  rewrite decide_True by auto with disk; cbn;
  rewrite decide_True by auto with disk; cbn;
  unfold ExtendibleHashFile.peek_is_eof; cbn;
  rewrite !contents_touch.

Section IndexFacts.
Import ExtendibleHashFile.
Variable KeyType : Type.
Variable sizeof_RecordType : positive.
Variable index : list char → KeyType.
Variable hash_function : KeyType → Z.
Variable global_depth : nat.

Local Abbreviation new := (new KeyType sizeof_RecordType index hash_function global_depth).
Local Abbreviation search := (search KeyType sizeof_RecordType hash_function global_depth).
Local Abbreviation insert := (insert KeyType index hash_function global_depth).

Lemma new_corrupt (fileName : string) (primaryKey : bool) (w : world) :
  contents w (fileName +:+ "_index.ehashind") ≠ [] ∨
  contents w (fileName +:+ ".ehash") ≠ [] →
  new fileName primaryKey w =
    (Throw corrupt_structure,
     touch (fileName +:+ "_index.ehashind") (touch (fileName +:+ ".ehash") w)).
Proof.
  intros Hne.
  assert (directory_exists w (dirname fileName) = true) as Hdir.
  { destruct Hne as [Hs%nonempty_contents_is_Some|Hs%nonempty_contents_is_Some];
      apply file_in_directory in Hs.
    - by rewrite dirname_index_file in Hs.
    - by rewrite dirname_hash_file in Hs. }
  open_both_files Hdir.
  destruct (decide (contents w (fileName +:+ "_index.ehashind") = [])) as [Hi|Hi].
  - destruct Hne as [Hne|Hne]; [done|].
    rewrite (bool_decide_eq_true_2 _ Hi). cbn. rewrite !contents_touch.
    rewrite (bool_decide_eq_false_2 _ Hne). cbn. rewrite !contents_touch.
    rewrite (bool_decide_eq_false_2 _ Hne). cbn. done.
  - rewrite (bool_decide_eq_false_2 _ Hi). cbn. rewrite !contents_touch.
    rewrite (bool_decide_eq_false_2 _ Hi). cbn. done.
Qed.

(** Both files with contents: the branch that would load the directory
    is never taken. *)
Lemma new_never_loads (fileName : string) (primaryKey : bool) (w : world) :
  contents w (fileName +:+ "_index.ehashind") ≠ [] →
  contents w (fileName +:+ ".ehash") ≠ [] →
  (new fileName primaryKey w).1 = Throw corrupt_structure.
Proof. intros Hi Hh. rewrite new_corrupt by auto. done. Qed.

(** A bucket file that is not there is created before the constructor
    finds it empty and throws. *)
Lemma new_creates_missing_bucket_file (fileName : string) (primaryKey : bool)
      (w : world) :
  contents w (fileName +:+ "_index.ehashind") ≠ [] →
  files w !! (fileName +:+ ".ehash") = None →
  (new fileName primaryKey w).1 = Throw corrupt_structure ∧
  files (new fileName primaryKey w).2 !! (fileName +:+ ".ehash") = Some [].
Proof.
  intros Hi Hh. rewrite new_corrupt by auto. split; [done|]. cbn.
  rewrite touch_lookup_ne by (apply not_eq_sym; auto with disk).
  by apply touch_missing.
Qed.

Lemma lookup_create (hash_sequence : list char) :
  ExtendibleHash.lookup global_depth (ExtendibleHash.create global_depth)
    hash_sequence = Ok 0.
Proof. reflexivity. Qed.

Lemma hash_sequence_defined (key : KeyType) :
  (0 < global_depth)%nat →
  hash_sequence KeyType hash_function global_depth key =
    Ok (bitset_to_string global_depth
          ((hash_function key mod 2 ^ 64) mod Z.of_nat global_depth)).
Proof. intros HD. unfold hash_sequence. rewrite decide_False by lia. done. Qed.

(** *** What a call leaves as it was *)

Lemma insert_frame (record : RecordType) (o : t) (w : world) :
  files (insert record o w).2 = files w ∧
  hash_index (insert record o w).1.2 = hash_index o ∧
  (∀ f, name f (insert record o w).1.2 = name f o).
Proof.
  unfold insert, mbind, M_bind, SAFE_FILE_OPEN, lift, gets, effect, close.
  repeat (case_match; simplify_eq/=); split_and!; try done; by intros [].
Qed.

Lemma search_frame (key : KeyType) (o : t) (w : world) :
  (search key o w).2 = w ∧
  hash_index (search key o w).1.2 = hash_index o ∧
  (∀ f, name f (search key o w).1.2 = name f o) ∧
  (∀ result, (search key o w).1.1 = Ok result → result = []).
Proof.
  unfold search, mbind, M_bind, SAFE_FILE_OPEN, lift, gets, read_bucket, close, mret, M_ret.
  repeat (case_match; simplify_eq/=); split_and!; try done; try (by intros []);
    by intros ? [= <-].
Qed.

(** *** Calls on the one-entry directory *)

Lemma insert_on_created (record : RecordType) (o : t) (w : world) :
  (0 < global_depth)%nat →
  hash_index o = ExtendibleHash.create global_depth →
  is_open (hash_stream o) = false →
  is_Some (files w !! hash_file_name o) →
  insert record o w = (Ok (), set_stream hash_file closed_stream o, cout 0 w).
Proof.
  intros HD Hdir Hclosed Hfile.
  unfold insert, mbind, M_bind, SAFE_FILE_OPEN, lift, gets, effect, close. cbn.
  rewrite Hclosed, decide_True by done.
  rewrite hash_sequence_defined by done. cbn. rewrite Hdir. done.
Qed.

Lemma replay_on_created (fuel pos : nat) (o : t) (w : world) :
  (0 < global_depth)%nat →
  hash_index o = ExtendibleHash.create global_depth →
  is_open (hash_stream o) = false →
  is_Some (files w !! hash_file_name o) →
  ∃ o' w',
    replay KeyType sizeof_RecordType index hash_function global_depth
      fuel pos o w = (Ok (), o', w') ∧
    files w' = files w ∧
    hash_index o' = hash_index o ∧
    (∀ f, name f o' = name f o) ∧
    primary_key o' = primary_key o ∧
    raw_stream o' = raw_stream o ∧ index_stream o' = index_stream o ∧
    is_open (hash_stream o') = false.
Proof.
  intros HD. revert pos o w.
  induction fuel as [|fuel IH]; intros pos o w Hdir Hclosed Hfile; cbn.
  - by exists o, w.
  - case_decide as Hfits; [|by exists o, w].
    unfold mbind, M_bind. rewrite insert_on_created by done.
    destruct (IH (pos + record_size sizeof_RecordType)%nat
                (set_stream hash_file closed_stream o) (cout 0 w))
      as (o' & w' & -> & Hfiles & Hindex & Hnames & Hpk & Hraw & Hidx & Hhash);
      [done..|].
    exists o', w'. by split_and!.
Qed.

Lemma replay_all_on_created (o : t) (w : world) :
  (0 < global_depth)%nat →
  hash_index o = ExtendibleHash.create global_depth →
  is_open (hash_stream o) = false →
  is_Some (files w !! hash_file_name o) →
  ∃ o' w',
    replay_all KeyType sizeof_RecordType index hash_function global_depth
      o w = (Ok (), o', w') ∧
    files w' = files w ∧
    hash_index o' = hash_index o ∧
    (∀ f, name f o' = name f o) ∧
    primary_key o' = primary_key o ∧
    raw_stream o' = raw_stream o ∧ index_stream o' = index_stream o ∧
    is_open (hash_stream o') = false.
Proof. intros. unfold replay_all. by apply replay_on_created. Qed.

Lemma search_on_created (key : KeyType) (o : t) (w : world) :
  (0 < global_depth)%nat →
  hash_index o = ExtendibleHash.create global_depth →
  is_open (raw_stream o) = false →
  is_Some (files w !! raw_file_name o) →
  (length (take BLOCK_SIZE (contents w (raw_file_name o)))
     ≤ sizeof_Bucket sizeof_RecordType)%nat →
  (search key o w).1.1 = Ok [] ∧ (search key o w).2 = w.
Proof.
  intros HD Hdir Hclosed Hfile Hroom.
  unfold search, mbind, M_bind, SAFE_FILE_OPEN, lift, gets, read_bucket, close.
  cbn. rewrite Hclosed, decide_True by done.
  rewrite hash_sequence_defined by done. cbn. rewrite Hdir, lookup_create.
  unfold read_at. cbn. rewrite decide_True; [done|]. by rewrite drop_0.
Qed.

(** *** The constructor, case by case *)

(** Where the directory of the data file does not exist, the first
    statement of the constructor throws, and nothing is created. *)
Lemma new_without_directory (fileName : string) (primaryKey : bool) (w : world) :
  directory_exists w (dirname fileName) = false →
  new fileName primaryKey w = (Throw could_not_open, w).
Proof.
  intros Hdir.
  unfold ExtendibleHashFile.new, constructor_body.
  unfold mbind, M_bind, SAFE_FILE_CREATE_IF_NOT_EXISTS. cbn.
  unfold can_create. by rewrite dirname_hash_file, Hdir.
Qed.

Lemma new_without_data_file (fileName : string) (primaryKey : bool) (w : world) :
  directory_exists w (dirname fileName) = true →
  contents w (fileName +:+ "_index.ehashind") = [] →
  contents w (fileName +:+ ".ehash") = [] →
  files w !! fileName = None →
  new fileName primaryKey w =
    (Throw could_not_open,
     touch (fileName +:+ "_index.ehashind") (touch (fileName +:+ ".ehash") w)).
Proof.
  intros Hdir Hi Hh Hraw. open_both_files Hdir.
  rewrite (bool_decide_eq_true_2 _ Hi). cbn. rewrite !contents_touch.
  rewrite (bool_decide_eq_true_2 _ Hh). cbn.
  rewrite decide_False; [done|].
  rewrite !touch_lookup_ne, Hraw by auto with disk.
  by intros [??].
Qed.

#[local] Opaque ExtendibleHashFile.replay_all.

Lemma new_from_scratch (fileName : string) (primaryKey : bool) (w : world)
      (raw : list char) :
  (0 < global_depth)%nat →
  contents w (fileName +:+ "_index.ehashind") = [] →
  contents w (fileName +:+ ".ehash") = [] →
  files w !! fileName = Some raw →
  ∃ o w',
    new fileName primaryKey w = (Ok o, w') ∧
    files w' = files (touch (fileName +:+ "_index.ehashind")
                        (touch (fileName +:+ ".ehash") w)) ∧
    (raw = [] → console w' = console w) ∧
    hash_index o = ExtendibleHash.create global_depth ∧
    raw_file_name o = fileName ∧
    index_file_name o = fileName +:+ "_index.ehashind" ∧
    hash_file_name o = fileName +:+ ".ehash" ∧
    primary_key o = primaryKey ∧
    is_open (raw_stream o) = false ∧
    is_open (index_stream o) = false ∧
    is_open (hash_stream o) = false.
Proof.
  intros HD Hi Hh Hraw.
  assert (directory_exists w (dirname fileName) = true) as Hdir
    by (apply file_in_directory; by rewrite Hraw).
  open_both_files Hdir.
  rewrite (bool_decide_eq_true_2 _ Hi). cbn. rewrite !contents_touch.
  rewrite (bool_decide_eq_true_2 _ Hh). cbn.
  set (w1 := touch _ (touch _ w)).
  assert (files w1 !! fileName = Some raw) as Hraw1.
  { subst w1. by rewrite !touch_lookup_ne by auto with disk. }
  rewrite decide_True by (by rewrite Hraw1). cbn.
  assert (contents w1 fileName = raw) as Hc by (unfold contents; by rewrite Hraw1).
  rewrite Hc. destruct raw as [|b raw]; cbn.
  - eexists _, _. split; [done|]. split_and!; try done.
    intros _. subst w1. by rewrite !touch_console.
  - match goal with |- context [replay_all _ _ _ _ _ ?o ?w] =>
      destruct (replay_all_on_created o w)
        as (o' & w' & -> & Hfiles & Hindex & Hnames & Hpk & Hrs & Hix & Hhs)
    end; [done.. | | ].
    { cbn. subst w1. auto with disk. }
    cbn. eexists _, _. split; [done|].
    split_and!; try done;
      [apply (Hnames raw_file) | apply (Hnames index_file) | apply (Hnames hash_file)].
Qed.

#[local] Transparent ExtendibleHashFile.replay_all.

Lemma delete_truncates (o : t) (w : world) :
  is_open (index_stream o) = false →
  can_create w (index_file_name o) = true →
  delete o w = (Ok (), truncate (index_file_name o) w).
Proof.
  intros Hclosed Hdir.
  unfold delete, destructor_body, mbind, M_bind, SAFE_FILE_OPEN.
  cbn. by rewrite Hclosed, Hdir.
Qed.

Lemma contents_truncate (n : string) (w : world) : contents (truncate n w) n = [].
Proof. unfold contents, truncate. cbn. by rewrite lookup_insert_eq. Qed.

(** Whatever the directory in memory, the file the destructor leaves
    unpacks to no entry at all, and [lookup] on that throws. *)
Lemma reload_after_close (o : t) (w : world) (bits : list char) :
  is_open (index_stream o) = false →
  can_create w (index_file_name o) = true →
  ExtendibleHash.lookup global_depth
    (ExtendibleHash.load global_depth
       (contents (delete o w).2 (index_file_name o))) bits
  = Throw sequence_not_found.
Proof.
  intros Hclosed Hdir. rewrite delete_truncates by done. cbn [snd].
  by rewrite contents_truncate.
Qed.

Lemma existing_file_contents (w : world) (n : string) :
  is_Some (files w !! n) → files w !! n = Some (contents w n).
Proof. unfold contents. by intros [c ->]. Qed.

(** C7, amended.  When exactly one of the directory file and the bucket
    file has contents and the other has none, being empty or missing,
    the constructor throws the structural-corruption error and no
    object comes to exist.  Afterwards both files are there with the
    contents they had, so the one without contents has been created
    empty if it was missing; every other file, the directories and the
    output are as they were.  Where both files existed, the world is the
    one the constructor started in. *)
Theorem half_index_is_refused (fileName : string) (primaryKey : bool) (w : world) :
  (contents w (fileName +:+ "_index.ehashind") ≠ [] ∧
   contents w (fileName +:+ ".ehash") = []) ∨
  (contents w (fileName +:+ "_index.ehashind") = [] ∧
   contents w (fileName +:+ ".ehash") ≠ []) →
  ∃ w',
    new fileName primaryKey w = (Throw corrupt_structure, w') ∧
    (∀ n, files w' !! n =
            if decide (n = fileName +:+ "_index.ehashind" ∨
                       n = fileName +:+ ".ehash")
            then Some (contents w n)
            else files w !! n) ∧
    directories w' = directories w ∧
    console w' = console w ∧
    (is_Some (files w !! (fileName +:+ "_index.ehashind")) →
     is_Some (files w !! (fileName +:+ ".ehash")) →
     w' = w).
Proof.
  intros Hone. eexists. split; [apply new_corrupt; tauto|]. split_and!.
  - intros n. case_decide as Hn.
    + rewrite <- (contents_touch (fileName +:+ ".ehash") n w).
      rewrite <- (contents_touch (fileName +:+ "_index.ehashind") n).
      apply existing_file_contents. destruct Hn as [->| ->]; auto with disk.
    + rewrite !touch_lookup_ne; [done | intros <-; tauto..].
  - by rewrite !touch_directories.
  - by rewrite !touch_console.
  - intros Hindex Hhash.
    by rewrite (touch_existing (fileName +:+ ".ehash")), touch_existing.
Qed.

(** C9.  Over an empty data file, with no directory file and no bucket
    file or empty ones, the constructor returns an index whose directory
    is the one-entry directory, and [search] on it returns the empty
    sequence for every key, without an exception and without touching
    the world. *)
Theorem search_on_fresh_index (fileName : string) (primaryKey : bool)
        (w : world) (key : KeyType) :
  (0 < global_depth)%nat →
  files w !! fileName = Some [] →
  contents w (fileName +:+ "_index.ehashind") = [] →
  contents w (fileName +:+ ".ehash") = [] →
  ∃ o w',
    new fileName primaryKey w = (Ok o, w') ∧
    hash_index o = ExtendibleHash.create global_depth ∧
    (search key o w').1.1 = Ok [] ∧
    (search key o w').2 = w'.
Proof.
  intros HD Hraw Hi Hh.
  destruct (new_from_scratch fileName primaryKey w [] HD Hi Hh Hraw)
    as (o & w' & Hnew & Hfiles & _ & Hdir & Hname & _ & _ & _ & Hclosed & _).
  exists o, w'. split; [done|]. split; [done|].
  assert (files w' !! raw_file_name o = Some []) as Hraw'.
  { by rewrite Hname, Hfiles, !touch_lookup_ne by auto with disk. }
  apply search_on_created; [done.. | by rewrite Hraw' |].
  unfold contents. rewrite Hraw'. cbn. lia.
Qed.

Lemma run_call_frame (c : call KeyType) (o : t) (w : world) :
  hash_index (run_call KeyType sizeof_RecordType index hash_function
                global_depth c o w).1.2 = hash_index o.
Proof.
  destruct c as [key|record]; cbn [run_call].
  - pose proof (search_frame key o w) as (_ & H & _).
    by destruct (search key o w) as [[??]?].
  - pose proof (insert_frame record o w) as (_ & H & _).
    by destruct (insert record o w) as [[??]?].
Qed.

(** With a positive depth, entries in range and a record size that fills
    the block, every call has a defined outcome. *)
Lemma run_call_defined (c : call KeyType) (o : t) (w : world) :
  (0 < global_depth)%nat →
  Forall (ExtendibleHash.entry_in_range global_depth) (hash_index o) →
  sizeof_Bucket sizeof_RecordType = BLOCK_SIZE →
  reply_defined (run_call KeyType sizeof_RecordType index hash_function
                   global_depth c o w).1.1 = true.
Proof.
  intros HD Hrange Hfill.
  assert (∀ key, ExtendibleHash.lookup global_depth (hash_index o)
                   (bitset_to_string global_depth
                      ((hash_function key mod 2 ^ 64) mod Z.of_nat global_depth))
                 ≠ Undefined) as Hlookup.
  { intros key. apply lookup_defined; [apply bitset_to_string_length | done]. }
  destruct c as [key|record]; cbn [run_call].
  - unfold ExtendibleHashFile.search, mbind, M_bind, SAFE_FILE_OPEN, lift, gets,
      read_bucket, close.
    rewrite hash_sequence_defined by done. specialize (Hlookup key).
    repeat (case_match; simplify_eq/=); try done.
    all: match goal with
         | H : ¬ (length (read_at ?w ?f ?pos ?n ?o) ≤ _)%nat |- _ =>
             exfalso; apply H; rewrite Hfill; unfold read_at;
             case_match; [rewrite length_take; lia | cbn; lia]
         end.
  - unfold ExtendibleHashFile.insert, mbind, M_bind, SAFE_FILE_OPEN, lift, gets,
      effect, close.
    rewrite hash_sequence_defined by done. specialize (Hlookup (index record)).
    repeat (case_match; simplify_eq/=); done.
Qed.

Lemma run_calls_defined (cs : list (call KeyType)) (o : t) (w : world) :
  (0 < global_depth)%nat →
  Forall (ExtendibleHash.entry_in_range global_depth) (hash_index o) →
  sizeof_Bucket sizeof_RecordType = BLOCK_SIZE →
  Forall (λ r, reply_defined r = true)
    (run_calls KeyType sizeof_RecordType index hash_function
       global_depth cs o w).1.1.
Proof.
  intros HD Hrange Hfill. revert o w Hrange.
  induction cs as [|c cs IH]; intros o w Hrange; [by constructor|].
  cbn [run_calls].
  pose proof (run_call_defined c o w HD Hrange Hfill) as Hdef.
  pose proof (run_call_frame c o w) as Hframe.
  destruct (run_call _ _ _ _ _ c o w) as [[r o'] w']. cbn in Hdef, Hframe.
  rewrite Hdef. rewrite <- Hframe in Hrange. specialize (IH o' w' Hrange).
  destruct (run_calls _ _ _ _ _ cs o' w') as [[rs o''] w'']. by constructor.
Qed.

(** C10.  Whatever calls of [search] and [insert] are made on an
    object, in whatever state and world, its directory afterwards is the
    one it had; the body of the destructor does not change it either. *)
Theorem calls_leave_directory (cs : list (call KeyType)) (o : t) (w : world) :
  hash_index (run_calls KeyType sizeof_RecordType index hash_function
                global_depth cs o w).1.2 = hash_index o ∧
  hash_index (destructor_body o w).1.2 = hash_index o.
Proof.
  split.
  - revert o w. induction cs as [|c cs IH]; intros o w; [done|].
    cbn [run_calls]. pose proof (run_call_frame c o w) as Hcall.
    destruct (run_call _ _ _ _ _ c o w) as [[r o'] w']. cbn in Hcall.
    destruct (reply_defined r); [|done].
    specialize (IH o' w').
    destruct (run_calls _ _ _ _ _ cs o' w') as [[rs o''] w'']. cbn in *. congruence.
  - unfold destructor_body, mbind, M_bind, SAFE_FILE_OPEN.
    repeat (case_match; simplify_eq/=); done.
Qed.
End IndexFacts.

Lemma half_index_is_refused_witness :
  ∃ w',
    Scenario.new "data" true Scenario.half_index = (Throw corrupt_structure, w') ∧
    (∀ n, files w' !! n =
            if decide (n = "data" +:+ "_index.ehashind" ∨ n = "data" +:+ ".ehash")
            then Some (contents Scenario.half_index n)
            else files Scenario.half_index !! n) ∧
    directories w' = directories Scenario.half_index ∧
    console w' = console Scenario.half_index ∧
    (is_Some (files Scenario.half_index !! ("data" +:+ "_index.ehashind")) →
     is_Some (files Scenario.half_index !! ("data" +:+ ".ehash")) →
     w' = Scenario.half_index).
Proof.
  apply (half_index_is_refused Z Scenario.record_bytes Scenario.key_of
           Scenario.hash_of Scenario.depth "data" true Scenario.half_index).
  left. split; [vm_compute; discriminate | vm_compute; reflexivity].
Defined.

(** C7, counterexample.  A data file, a directory file with one entry
    and no bucket file: exactly one of the two index files has contents.
    The constructor throws the structural-corruption error, and the
    bucket file, missing before, is there afterwards. *)
Lemma half_index_creates_missing_file :
  contents Scenario.half_index_without_bucket_file "data_index.ehashind" ≠ [] ∧
  contents Scenario.half_index_without_bucket_file "data.ehash" = [] ∧
  files Scenario.half_index_without_bucket_file !! "data.ehash" = None ∧
  (Scenario.new "data" true Scenario.half_index_without_bucket_file).1
    = Throw corrupt_structure ∧
  files (Scenario.new "data" true Scenario.half_index_without_bucket_file).2
    !! "data.ehash" = Some [].
Proof.
  split_and!.
  - vm_compute. discriminate.
  - vm_compute. reflexivity.
  - vm_compute. reflexivity.
  - vm_compute. reflexivity.
  - vm_compute. reflexivity.
Qed.

Lemma search_on_fresh_index_witness :
  ∃ o w',
    Scenario.new "data" true Scenario.empty_dataset = (Ok o, w') ∧
    ExtendibleHashFile.hash_index o = ExtendibleHash.create Scenario.depth ∧
    (Scenario.search 7 o w').1.1 = Ok [] ∧
    (Scenario.search 7 o w').2 = w'.
Proof.
  apply (search_on_fresh_index Z Scenario.record_bytes Scenario.key_of
           Scenario.hash_of Scenario.depth "data" true Scenario.empty_dataset 7).
  - unfold Scenario.depth. lia.
  - vm_compute. reflexivity.
  - vm_compute. reflexivity.
  - vm_compute. reflexivity.
Defined.

(** ** The concrete index *)

Section ScenarioFacts.
Import ExtendibleHashFile.

(** C1, at a failing input.  On a fresh index over an empty data file,
    [insert] of the record [x2a] returns normally, the files are what
    they were, the bucket file is still empty, and [search] for the key
    of the record returns the empty sequence. *)
Theorem insert_then_search_loses_the_record :
  ∃ o w o' w' o'',
    Scenario.new "data" true Scenario.empty_dataset = (Ok o, w) ∧
    Scenario.insert [x2a] o w = (Ok (), o', w') ∧
    files w' = files w ∧
    contents w' "data.ehash" = [] ∧
    Scenario.search (Scenario.key_of [x2a]) o' w' = (Ok [], o'', w').
Proof.
  eexists _, _, _, _, _. split_and!.
  - vm_compute. reflexivity.
  - vm_compute. reflexivity.
  - vm_compute. reflexivity.
  - vm_compute. reflexivity.
  - vm_compute. reflexivity.
Qed.

(** C2, at a failing input.  The index is over a primary key; the key
    42 resolves to bucket reference 0; the bucket [search] reads there
    holds one record, [x2a], whose key is 42; [search 42] returns the
    empty sequence. *)
Theorem search_ignores_the_bucket_it_reads :
  ∃ o w bucket o',
    Scenario.new "data" true Scenario.bucket_shaped_dataset = (Ok o, w) ∧
    primary_key o = true ∧
    hash_sequence Z Scenario.hash_of Scenario.depth 42
      = Ok [x30; x30; x31; x30] ∧
    ExtendibleHash.lookup Scenario.depth (hash_index o) [x30; x30; x31; x30]
      = Ok 0 ∧
    read_bucket Scenario.record_bytes raw_file 0
      (set_stream raw_file opened_stream o) w = (Ok bucket, o', w) ∧
    size bucket = 1 ∧
    records bucket !! 0%nat = Some [x2a] ∧
    Scenario.key_of [x2a] = 42 ∧
    (Scenario.search 42 o w).1.1 = Ok [].
Proof.
  eexists _, _, _, _. split_and!.
  - vm_compute. reflexivity.
  - vm_compute. reflexivity.
  - vm_compute. reflexivity.
  - vm_compute. reflexivity.
  - vm_compute. reflexivity.
  - vm_compute. reflexivity.
  - vm_compute. reflexivity.
  - vm_compute. reflexivity.
  - vm_compute. reflexivity.
Qed.

(** C3, at a failing input.  With a directory file of one entry and a
    bucket file of one bucket the constructor throws the
    structural-corruption error, although the directory file unpacks to
    the one-entry directory. *)
Theorem stored_index_is_refused :
  Scenario.new "data" true Scenario.stored_index
    = (Throw corrupt_structure, Scenario.stored_index) ∧
  ExtendibleHash.load Scenario.depth
    (contents Scenario.stored_index "data_index.ehashind")
    = ExtendibleHash.create Scenario.depth.
Proof. split; vm_compute; reflexivity. Qed.

(** C4, at a failing input.  With 32 address bits the hash values 32
    and 0 get the same sequence, all zeros, which is not the low-order
    32 bits of 32. *)
Theorem hash_sequence_is_reduced_modulo_depth :
  hash_sequence Z Scenario.hash_of 32 32 = Ok (bitset_to_string 32 0) ∧
  hash_sequence Z Scenario.hash_of 32 0 = Ok (bitset_to_string 32 0) ∧
  bitset_to_string 32 (Scenario.hash_of 32) ≠ bitset_to_string 32 0.
Proof. split_and!; [vm_compute; reflexivity.. | vm_compute; discriminate]. Qed.

(** C8, at a failing input.  The destructor leaves the directory file
    empty; unpacking it gives a directory without entries, on which
    [lookup] throws for a string the directory in memory resolved to
    bucket 0. *)
Theorem closing_empties_the_directory_file :
  ∃ o w w',
    Scenario.new "data" true Scenario.empty_dataset = (Ok o, w) ∧
    hash_index o = ExtendibleHash.create Scenario.depth ∧
    delete o w = (Ok (), w') ∧
    ExtendibleHash.load Scenario.depth (contents w' (index_file_name o)) = [] ∧
    ExtendibleHash.lookup Scenario.depth (hash_index o) [x30; x31; x30; x31]
      = Ok 0 ∧
    ExtendibleHash.lookup Scenario.depth
      (ExtendibleHash.load Scenario.depth (contents w' (index_file_name o)))
      [x30; x31; x30; x31] = Throw sequence_not_found.
Proof.
  eexists _, _, _. split_and!.
  - vm_compute. reflexivity.
  - vm_compute. reflexivity.
  - vm_compute. reflexivity.
  - vm_compute. reflexivity.
  - vm_compute. reflexivity.
  - vm_compute. reflexivity.
Qed.

End ScenarioFacts.

(** * Further properties of the source *)

Lemma div_step (n sz : nat) :
  (0 < sz)%nat → (sz ≤ n)%nat → (n / sz = S ((n - sz) / sz))%nat.
Proof.
  intros Hsz Hle. replace n with (1 * sz + (n - sz))%nat at 1 by lia.
  rewrite Nat.div_add_l by lia. lia.
Qed.

(** ** [lookup] *)

Section DirectoryCoverage.
Import ExtendibleHash.
Variable D : nat.

(** X1.  [lookup] over two runs of entries is [lookup] over the first,
    and over the second only when the first throws: an earlier match,
    or an earlier access out of bounds, decides. *)
Theorem lookup_app (first rest : t) (bits : list char) :
  lookup D (first ++ rest) bits =
    match lookup D first bits with
    | Throw _ => lookup D rest bits
    | found => found
    end.
Proof.
  induction first as [|entry first IH]; [done|].
  cbn [app lookup]. by destruct (entry_agrees D bits entry) as [[]|].
Qed.

Lemma compare_from_overrun (fuel j : nat) (bits seq : list char) :
  length bits = D → length seq = (D + 1)%nat →
  (j ≤ D)%nat → (D - j < fuel)%nat →
  (∀ i, (i < D)%nat → seq !! i = bits !! i) →
  compare_from D fuel j bits seq = None.
Proof.
  intros Hb Hs. revert j. induction fuel as [|fuel IH]; intros j Hj Hfuel Hall; [lia|].
  cbn [compare_from]. case_decide as Hlt; [|done].
  unfold string_at. rewrite decide_False by lia.
  rewrite <- (Hall (D - 1 - j)%nat) by lia.
  destruct (lookup_lt_is_Some_2 seq (D - 1 - j)%nat ltac:(lia)) as [c ->].
  rewrite decide_False by (intros Hne; by apply Hne).
  apply IH; [lia | lia | done].
Qed.

(** X2.  An entry whose local depth exceeds [D] and whose [D]
    characters all agree with the string takes the loop of [lookup] to
    [j = D], where [D - 1 - j] is no index of either array. *)
Theorem lookup_overlong_depth_undefined (entry : ExtendibleHashEntry) (rest : t)
        (bits : list char) :
  length bits = D → length (sequence entry) = (D + 1)%nat →
  (N.of_nat D < local_depth entry)%N →
  (∀ i, (i < D)%nat → sequence entry !! i = bits !! i) →
  lookup D (entry :: rest) bits = Undefined.
Proof.
  intros Hb Hs Hdeep Hall. cbn [lookup]. unfold entry_agrees.
  rewrite compare_from_overrun; [done.. | lia | lia | done].
Qed.

(** X3.  When no entry is deeper than [d], two strings with the same
    [d] low-order bits get the same answer from [lookup]. *)
Theorem lookup_reads_low_bits_only (hash_entries : t) (d : nat)
        (bits bits' : list char) :
  length bits = D → length bits' = D →
  Forall (entry_in_range D) hash_entries →
  Forall (λ e, (local_depth e ≤ N.of_nat d)%N) hash_entries →
  low_order d bits = low_order d bits' →
  lookup D hash_entries bits = lookup D hash_entries bits'.
Proof.
  intros Hb Hb' Hrange Hdepth Hlow.
  assert (∀ j, (j < d)%nat → bits !! (D - 1 - j)%nat = bits' !! (D - 1 - j)%nat) as Hpt.
  { intros j Hj. destruct (decide (j < D)%nat) as [HjD|HjD].
    - pose proof (f_equal (λ l, l !! ((D - 1 - j) - (D - d))%nat) Hlow) as Hl.
      cbn in Hl. rewrite !low_order_lookup, Hb, Hb' in Hl.
      by replace (D - d + (D - 1 - j - (D - d)))%nat with (D - 1 - j)%nat in Hl by lia.
    - replace (D - 1 - j)%nat with (D - 1 - (D - 1))%nat by lia.
      destruct (decide (D = 0)%nat) as [->|HD].
      + destruct bits, bits'; done.
      + pose proof (f_equal (λ l, l !! ((D - 1 - (D - 1)) - (D - d))%nat) Hlow) as Hl.
        cbn in Hl. rewrite !low_order_lookup, Hb, Hb' in Hl.
        by replace (D - d + (D - 1 - (D - 1) - (D - d)))%nat
          with (D - 1 - (D - 1))%nat in Hl by lia. }
  induction Hrange as [|entry rest Hentry Hrest IH]; [done|].
  apply Forall_cons_1 in Hdepth as [Hd Hdepth].
  cbn [lookup]. rewrite !entry_agrees_matches by done.
  rewrite (bool_decide_ext (matches D bits entry) (matches D bits' entry)).
  - case_bool_decide; [done | by apply IH].
  - rewrite !matches_pointwise by done.
    split; intros Hm j Hj; [rewrite <- Hpt by lia | rewrite Hpt by lia]; by apply Hm.
Qed.
End DirectoryCoverage.

(** ** Loading the directory *)

Section LoadCoverage.
Import ExtendibleHash.
Variable D : nat.

Lemma sizeof_entry_pos : (0 < sizeof_entry D)%nat.
Proof. unfold sizeof_entry. lia. Qed.

Lemma unpack_entries_lookup (fuel : nat) (buf : list char) (i : nat) :
  (length buf / sizeof_entry D ≤ fuel)%nat →
  unpack_entries D fuel buf !! i =
    if decide (i < length buf / sizeof_entry D)%nat
    then Some (unpack_entry D (take (sizeof_entry D) (drop (i * sizeof_entry D) buf)))
    else None.
Proof.
  pose proof sizeof_entry_pos as Hsz.
  revert buf i. induction fuel as [|fuel IH]; intros buf i Hfuel.
  - cbn [unpack_entries]. apply Nat.le_0_r in Hfuel. rewrite Hfuel. done.
  - cbn [unpack_entries]. case_decide as Hfits.
    + pose proof (div_step _ _ Hsz Hfits) as Hdiv.
      destruct i as [|i].
      * rewrite Hdiv, decide_True by lia. by rewrite drop_0.
      * change ((?e :: ?l) !! S i) with (l !! i).
        rewrite Hdiv in Hfuel |- *.
        rewrite IH by (rewrite length_drop; lia).
        rewrite length_drop, drop_drop.
        replace (sizeof_entry D + i * sizeof_entry D)%nat
          with (S i * sizeof_entry D)%nat by lia.
        set (q := ((length buf - sizeof_entry D) / sizeof_entry D)%nat).
        destruct (decide (i < q)%nat), (decide (S i < S q)%nat); try done; lia.
    + rewrite Nat.div_small by lia. done.
Qed.

(** X4.  [ExtendibleHash(std::fstream&)] makes one entry of each
    complete run of [sizeof(ExtendibleHashEntry<D>)] bytes, in order, and
    drops the bytes left after the last complete run. *)
Theorem load_entries (contents : list char) :
  length (load D contents) = (length contents / sizeof_entry D)%nat ∧
  ∀ i, (i < length contents / sizeof_entry D)%nat →
    load D contents !! i =
      Some (unpack_entry D (take (sizeof_entry D)
                              (drop (i * sizeof_entry D) contents))).
Proof.
  pose proof sizeof_entry_pos as Hsz.
  assert (length contents / sizeof_entry D ≤ length contents)%nat as Hfuel
      by (apply Nat.Div0.div_le_upper_bound; nia).
  set (q := (length contents / sizeof_entry D)%nat) in *.
  assert (∀ i, load D contents !! i =
               if decide (i < q)%nat
               then Some (unpack_entry D (take (sizeof_entry D)
                                            (drop (i * sizeof_entry D) contents)))
               else None) as Hall.
  { intros i. unfold load. by apply unpack_entries_lookup. }
  split.
  - destruct (Nat.lt_trichotomy (length (load D contents)) q) as [Hlt|[Heq|Hgt]];
      [exfalso | done | exfalso].
    + pose proof (Hall (length (load D contents))) as Hat.
      rewrite decide_True, lookup_ge_None_2 in Hat by lia. done.
    + pose proof (Hall q) as Hat. rewrite decide_False in Hat by lia.
      apply lookup_ge_None_1 in Hat. lia.
  - intros i Hi. by rewrite Hall, decide_True.
Qed.

End LoadCoverage.

(** ** The hash sequence *)

Lemma bitset_to_string_lookup (n : nat) (v : Z) (i : nat) :
  (i < n)%nat →
  bitset_to_string n v !! i =
    Some (if Z.testbit v (Z.of_nat (n - 1 - i)) then chr1 else chr0).
Proof.
  intros Hi. unfold bitset_to_string.
  rewrite list_lookup_fmap, lookup_seq_lt by done. done.
Qed.

Lemma bitset_to_string_bits (n : nat) (v : Z) :
  ExtendibleHash.bit_string n (bitset_to_string n v).
Proof.
  split; [apply bitset_to_string_length|].
  unfold bitset_to_string. apply Forall_fmap, Forall_forall. intros i _.
  cbn. unfold ExtendibleHash.is_bit. case_match; auto.
Qed.

Section HashCoverage.
Import ExtendibleHashFile.
Variable KeyType : Type.
Variable hash_function : KeyType → Z.
Variable global_depth : nat.

Local Abbreviation hash_sequence := (hash_sequence KeyType hash_function global_depth).

(** X5.  With a positive depth the hash sequence of a key is a string
    of [global_depth] characters, each ['0'] or ['1']. *)
Theorem hash_sequence_is_bit_string (key : KeyType) :
  (0 < global_depth)%nat →
  ∃ bits, hash_sequence key = Ok bits ∧
          ExtendibleHash.bit_string global_depth bits.
Proof.
  intros HD. eexists. split; [by apply hash_sequence_defined|].
  apply bitset_to_string_bits.
Qed.

(** X6.  The value written into the sequence is below [global_depth],
    so every position whose weight is at least [global_depth] holds
    ['0']. *)
Theorem hash_sequence_high_bits_zero (key : KeyType) (bits : list char) (i : nat) :
  hash_sequence key = Ok bits →
  (i < global_depth)%nat →
  Z.of_nat global_depth ≤ 2 ^ Z.of_nat (global_depth - 1 - i) →
  bits !! i = Some chr0.
Proof.
  intros Hseq Hi Hbig.
  rewrite hash_sequence_defined in Hseq by lia. injection Hseq as <-.
  rewrite bitset_to_string_lookup by done.
  set (v := (hash_function key mod 2 ^ 64) mod Z.of_nat global_depth).
  assert (0 ≤ v < Z.of_nat global_depth) as Hv by (apply Z.mod_pos_bound; lia).
  assert (Z.testbit v (Z.of_nat (global_depth - 1 - i)) = false) as ->; [|done].
  apply Z.testbit_false; [lia|]. by rewrite Z.div_small by lia.
Qed.
End HashCoverage.

(** ** The constructor, the calls and the destructor *)

Lemma empty_contents_lookup (w : world) (n : string) :
  contents w n = [] → is_Some (files w !! n) → files w !! n = Some [].
Proof. unfold contents. intros Hc [c Hs]. rewrite Hs in Hc |- *. cbn in Hc. by subst. Qed.

Lemma touch_keeps (a n : string) (w : world) (c : list char) :
  files w !! n = Some c → files (touch a w) !! n = Some c.
Proof.
  intros Hn. destruct (decide (a = n)) as [->|Hne].
  - rewrite touch_existing; [done | by rewrite Hn].
  - by rewrite touch_lookup_ne.
Qed.

Section IndexCoverage.
Import ExtendibleHashFile.
Variable KeyType : Type.
Variable sizeof_RecordType : positive.
Variable index : list char → KeyType.
Variable hash_function : KeyType → Z.
Variable global_depth : nat.

Local Abbreviation new := (new KeyType sizeof_RecordType index hash_function global_depth).
Local Abbreviation search := (search KeyType sizeof_RecordType hash_function global_depth).
Local Abbreviation insert := (insert KeyType index hash_function global_depth).
Local Abbreviation replay := (replay KeyType sizeof_RecordType index hash_function global_depth).
Local Abbreviation replay_all := (replay_all KeyType sizeof_RecordType index hash_function global_depth).
Local Abbreviation record_size := (record_size sizeof_RecordType).

Lemma record_size_pos : (0 < record_size)%nat.
Proof. unfold ExtendibleHashFile.record_size. lia. Qed.

(** X8.  Without a data file, and with no contents in the two index
    files, the constructor throws [Could not open file.], prints
    nothing, and the data file is still missing.  Where the directory of
    the data file exists, the throw is that of opening the data file,
    and both index files are there and empty afterwards; where it does
    not, the throw is that of the first create, and the world is as it
    was: no file is created. *)
Theorem constructor_without_data_file (fileName : string) (primaryKey : bool)
        (w : world) :
  contents w (fileName +:+ "_index.ehashind") = [] →
  contents w (fileName +:+ ".ehash") = [] →
  files w !! fileName = None →
  ∃ w',
    new fileName primaryKey w = (Throw could_not_open, w') ∧
    files w' !! fileName = None ∧
    console w' = console w ∧
    if directory_exists w (dirname fileName)
    then files w' !! (fileName +:+ "_index.ehashind") = Some [] ∧
         files w' !! (fileName +:+ ".ehash") = Some []
    else w' = w.
Proof.
  intros Hi Hh Hraw.
  destruct (directory_exists w (dirname fileName)) eqn:Hdir.
  - eexists. split; [by apply new_without_data_file|]. split_and!.
    + by rewrite !touch_lookup_ne
        by auto using data_file_not_hash_file, data_file_not_index_file.
    + by rewrite !touch_console.
    + apply empty_contents_lookup; [by rewrite !contents_touch | apply touch_is_Some].
    + apply empty_contents_lookup; [by rewrite !contents_touch |].
      apply touch_preserves_is_Some, touch_is_Some.
  - exists w. by rewrite new_without_directory.
Qed.

(** X7.  The constructor returns exactly when both index files are
    without contents and the data file exists, and then with the
    one-entry directory; it throws the corruption error when an index
    file has contents, and [Could not open file.] when none has and the
    data file is missing. *)
Theorem constructor_outcomes (fileName : string) (primaryKey : bool) (w : world) :
  (0 < global_depth)%nat →
  match (new fileName primaryKey w).1 with
  | Ok o =>
      contents w (fileName +:+ "_index.ehashind") = [] ∧
      contents w (fileName +:+ ".ehash") = [] ∧
      is_Some (files w !! fileName) ∧
      hash_index o = ExtendibleHash.create global_depth
  | Throw e =>
      (e = corrupt_structure ∧
       (contents w (fileName +:+ "_index.ehashind") ≠ [] ∨
        contents w (fileName +:+ ".ehash") ≠ [])) ∨
      (e = could_not_open ∧
       contents w (fileName +:+ "_index.ehashind") = [] ∧
       contents w (fileName +:+ ".ehash") = [] ∧
       files w !! fileName = None)
  | Undefined => False
  end.
Proof.
  intros HD.
  destruct (decide (contents w (fileName +:+ "_index.ehashind") = [])) as [Hi|Hi];
    [destruct (decide (contents w (fileName +:+ ".ehash") = [])) as [Hh|Hh]|].
  - destruct (files w !! fileName) as [raw|] eqn:Hraw.
    + destruct (new_from_scratch KeyType sizeof_RecordType index hash_function
                  global_depth fileName primaryKey w raw HD Hi Hh Hraw)
        as (o & w' & -> & _ & _ & Hdir & _).
      cbn. by split_and!.
    + destruct (directory_exists w (dirname fileName)) eqn:Hdir.
      * rewrite new_without_data_file by done. cbn. right. by split_and!.
      * rewrite new_without_directory by done. cbn. right. by split_and!.
  - rewrite new_corrupt by auto. cbn. left. auto.
  - rewrite new_corrupt by auto. cbn. left. auto.
Qed.

(** *** Files are never rewritten *)

Lemma replay_files (fuel pos : nat) (o : t) (w : world) :
  files (replay fuel pos o w).2 = files w.
Proof.
  revert pos o w. induction fuel as [|fuel IH]; intros pos o w; [done|].
  cbn [ExtendibleHashFile.replay]. case_decide; [|done].
  unfold mbind, M_bind.
  pose proof (insert_frame KeyType index hash_function global_depth
                (take record_size (drop pos (contents w (raw_file_name o)))) o w)
    as (Hfiles & _).
  destruct (insert _ o w) as [[[] o'] w']; cbn in Hfiles |- *; [|done..].
  by rewrite IH.
Qed.

Lemma replay_all_files (o : t) (w : world) :
  files (replay_all o w).2 = files w.
Proof. unfold ExtendibleHashFile.replay_all. apply replay_files. Qed.

#[local] Opaque ExtendibleHashFile.replay_all.

(** X9.  Whatever the outcome of the constructor, every file has the
    contents it had; the only files it adds are the two index files,
    empty, where they were missing. *)
Theorem constructor_changes_no_contents (fileName : string) (primaryKey : bool)
        (w : world) (n : string) :
  contents (new fileName primaryKey w).2 n = contents w n ∧
  (files (new fileName primaryKey w).2 !! n = files w !! n ∨
   (files w !! n = None ∧
    files (new fileName primaryKey w).2 !! n = Some [] ∧
    (n = fileName +:+ "_index.ehashind" ∨ n = fileName +:+ ".ehash"))).
Proof.
  destruct (directory_exists w (dirname fileName)) eqn:Hdir;
    [|rewrite new_without_directory by done; split; [done | by left]].
  assert (files (new fileName primaryKey w).2 =
          files (touch (fileName +:+ "_index.ehashind")
                   (touch (fileName +:+ ".ehash") w))) as Hfiles.
  { destruct (decide (contents w (fileName +:+ "_index.ehashind") = [])) as [Hi|Hi];
      [destruct (decide (contents w (fileName +:+ ".ehash") = [])) as [Hh|Hh]|].
    2, 3: rewrite new_corrupt by auto; done.
    destruct (files w !! fileName) as [raw|] eqn:Hraw;
      [|rewrite new_without_data_file by done; done].
    open_both_files Hdir.
    rewrite (bool_decide_eq_true_2 _ Hi). cbn. rewrite !contents_touch.
    rewrite (bool_decide_eq_true_2 _ Hh). cbn.
    set (w1 := touch _ (touch _ w)).
    assert (files w1 !! fileName = Some raw) as Hraw1.
    { subst w1. by rewrite !touch_lookup_ne
        by auto using data_file_not_hash_file, data_file_not_index_file. }
    rewrite decide_True by (by rewrite Hraw1). cbn.
    assert (contents w1 fileName = raw) as Hc by (unfold contents; by rewrite Hraw1).
    rewrite Hc. destruct raw as [|b raw]; cbn; [done|].
    match goal with |- context [ExtendibleHashFile.replay_all _ _ _ _ _ ?o0 ?w0] =>
      pose proof (replay_all_files o0 w0) as Hreplay;
      destruct (ExtendibleHashFile.replay_all _ _ _ _ _ o0 w0) as [[[] o'] w']
    end; cbn in Hreplay |- *; done. }
  split.
  - unfold contents at 1. rewrite Hfiles. fold (contents (touch (fileName +:+ "_index.ehashind")
                   (touch (fileName +:+ ".ehash") w)) n).
    by rewrite !contents_touch.
  - rewrite Hfiles. 
    destruct (files w !! n) as [c|] eqn:Hn.
    + left. by do 2 apply touch_keeps.
    + destruct (decide (n = fileName +:+ "_index.ehashind")) as [->|Hni].
      { right. split_and!; [done | | by left].
        apply empty_contents_lookup; [|apply touch_is_Some].
        rewrite !contents_touch. unfold contents. by rewrite Hn. }
      rewrite touch_lookup_ne by done.
      destruct (decide (n = fileName +:+ ".ehash")) as [->|Hnh].
      { right. split_and!; [done | by apply touch_missing | by right]. }
      left. by rewrite touch_lookup_ne.
Qed.

#[local] Transparent ExtendibleHashFile.replay_all.

(** *** One call of [insert] per complete record *)

Lemma replay_console (fuel pos : nat) (o : t) (w : world) :
  (0 < global_depth)%nat →
  hash_index o = ExtendibleHash.create global_depth →
  is_open (hash_stream o) = false →
  is_Some (files w !! hash_file_name o) →
  console (replay fuel pos o w).2 =
    console w ++
    replicate (Nat.min fuel
                 ((length (contents w (raw_file_name o)) - pos) / record_size)) 0.
Proof.
  intros HD. pose proof record_size_pos as Hrs. revert pos o w.
  induction fuel as [|fuel IH]; intros pos o w Hdir Hclosed Hfile.
  - cbn. by rewrite app_nil_r.
  - cbn [ExtendibleHashFile.replay]. rewrite length_drop. case_decide as Hfits.
    + unfold mbind, M_bind. rewrite insert_on_created by done.
      rewrite IH by done. cbn [console cout].
      change (contents (cout 0 w) ?n) with (contents w n).
      change (raw_file_name (set_stream hash_file closed_stream o))
        with (raw_file_name o).
      rewrite (div_step (length (contents w (raw_file_name o)) - pos) record_size)
        by done.
      rewrite <- Nat.succ_min_distr. cbn [replicate].
      rewrite <- app_assoc. by rewrite Nat.sub_add_distr.
    + rewrite Nat.div_small by lia. rewrite Nat.min_0_r. cbn. by rewrite app_nil_r.
Qed.

Lemma replay_all_console (o : t) (w : world) :
  (0 < global_depth)%nat →
  hash_index o = ExtendibleHash.create global_depth →
  is_open (hash_stream o) = false →
  is_Some (files w !! hash_file_name o) →
  console (replay_all o w).2 =
    console w ++
    replicate (length (contents w (raw_file_name o)) / record_size) 0.
Proof.
  intros HD Hdir Hclosed Hfile. unfold ExtendibleHashFile.replay_all.
  rewrite replay_console by done. rewrite Nat.sub_0_r. do 2 f_equal.
  apply Nat.min_r.
  transitivity (length (contents w (raw_file_name o))); [|lia].
  apply Nat.Div0.div_le_upper_bound. pose proof record_size_pos. nia.
Qed.

#[local] Opaque ExtendibleHashFile.replay_all.

(** X10.  Building from scratch prints one line, bucket 0, for each
    complete record of the data file; bytes after the last complete
    record are not inserted. *)
Theorem constructor_inserts_each_complete_record (fileName : string)
        (primaryKey : bool) (w : world) (raw : list char) :
  (0 < global_depth)%nat →
  contents w (fileName +:+ "_index.ehashind") = [] →
  contents w (fileName +:+ ".ehash") = [] →
  files w !! fileName = Some raw →
  ∃ o w',
    new fileName primaryKey w = (Ok o, w') ∧
    console w' = console w ++ replicate (length raw / record_size) 0.
Proof.
  intros HD Hi Hh Hraw.
  assert (directory_exists w (dirname fileName) = true) as Hdir
    by (apply file_in_directory; by rewrite Hraw).
  open_both_files Hdir.
  rewrite (bool_decide_eq_true_2 _ Hi). cbn. rewrite !contents_touch.
  rewrite (bool_decide_eq_true_2 _ Hh). cbn.
  set (w1 := touch _ (touch _ w)).
  assert (files w1 !! fileName = Some raw) as Hraw1.
  { subst w1. by rewrite !touch_lookup_ne by auto with disk. }
  rewrite decide_True by (by rewrite Hraw1). cbn.
  assert (contents w1 fileName = raw) as Hc by (unfold contents; by rewrite Hraw1).
  assert (console w1 = console w) as Hcon by (subst w1; by rewrite !touch_console).
  rewrite Hc. destruct raw as [|b raw]; cbn.
  - eexists _, _. split; [done|]. rewrite Hcon.
    rewrite Nat.Div0.div_0_l. cbn. by rewrite app_nil_r.
  - match goal with |- context [ExtendibleHashFile.replay_all _ _ _ _ _ ?o0 ?w0] =>
      pose proof (replay_all_console o0 w0) as Hcount;
      destruct (replay_all_on_created KeyType sizeof_RecordType index hash_function
                  global_depth o0 w0)
        as (o' & w' & Hrun & _)
    end; [done.. | subst w1; cbn; auto with disk |].
    rewrite Hrun in Hcount |- *. cbn [snd] in Hcount.
    cbn. eexists _, _. split; [done|].
    rewrite Hcount; [|done..| subst w1; cbn; auto with disk].
    change (raw_file_name _) with fileName. by rewrite Hcon, Hc.
Qed.
#[local] Transparent ExtendibleHashFile.replay_all.

(** *** Calls on a constructed index *)

(** X11.  On a constructed index every [insert] of a sequence returns
    normally, prints bucket 0, and leaves all files as they were. *)
Theorem inserts_after_construction (fileName : string) (primaryKey : bool)
        (w : world) (raw : list char) (records : list RecordType) :
  (0 < global_depth)%nat →
  contents w (fileName +:+ "_index.ehashind") = [] →
  contents w (fileName +:+ ".ehash") = [] →
  files w !! fileName = Some raw →
  ∃ o w',
    new fileName primaryKey w = (Ok o, w') ∧
    let '(replies, o'', w'') :=
      run_calls KeyType sizeof_RecordType index hash_function global_depth
        (call_insert KeyType <$> records) o w' in
    replies = (λ _, reply_insert (Ok ())) <$> records ∧
    files w'' = files w' ∧
    console w'' = console w' ++ replicate (length records) 0.
Proof.
  intros HD Hi Hh Hraw.
  destruct (new_from_scratch KeyType sizeof_RecordType index hash_function
              global_depth fileName primaryKey w raw HD Hi Hh Hraw)
    as (o & w' & Hnew & Hfiles & _ & Hdir & _ & _ & Hhname & _ & _ & _ & Hclosed).
  exists o, w'. split; [done|].
  assert (is_Some (files w' !! hash_file_name o)) as Hfile.
  { rewrite Hfiles, Hhname. auto with disk. }
  clear Hnew Hfiles Hhname. revert o w' Hdir Hclosed Hfile.
  induction records as [|record records IH]; intros o w' Hdir Hclosed Hfile.
  - cbn. by rewrite app_nil_r.
  - cbn [fmap list_fmap run_calls run_call].
    rewrite insert_on_created by done. cbn [reply_defined].
    specialize (IH (set_stream hash_file closed_stream o) (cout 0 w') Hdir eq_refl Hfile).
    destruct (run_calls _ _ _ _ _ _ _ _) as [[replies o''] w''].
    destruct IH as (-> & -> & ->). split_and!; [done..|].
    cbn. by rewrite <- app_assoc.
Qed.

(** *** What one call does *)

(** X13.  [insert] writes no file.  When it returns it has printed the
    bucket reference [lookup] gave for the hash sequence of the record's
    key and closed the bucket file; otherwise it has printed nothing. *)
Theorem insert_effects (record : RecordType) (o : t) (w : world) :
  files (insert record o w).2 = files w ∧
  ((insert record o w).1.1 = Ok () →
   ∃ bits ref,
     hash_sequence KeyType hash_function global_depth (index record) = Ok bits ∧
     ExtendibleHash.lookup global_depth (hash_index o) bits = Ok ref ∧
     console (insert record o w).2 = console w ++ [ref] ∧
     is_open (hash_stream (insert record o w).1.2) = false) ∧
  ((insert record o w).1.1 ≠ Ok () → console (insert record o w).2 = console w).
Proof.
  unfold ExtendibleHashFile.insert, mbind, M_bind, SAFE_FILE_OPEN, lift, gets,
    effect, close.
  repeat (case_match; simplify_eq/=); split_and!; try done; intros _;
    by eexists _, _.
Qed.

(** X14.  [search] leaves the world as it was.  When it returns, the
    result is empty and the data file is closed; the only exceptions are
    [Could not open file.] and the one of [lookup]. *)
Theorem search_effects (key : KeyType) (o : t) (w : world) :
  (search key o w).2 = w ∧
  (∀ result, (search key o w).1.1 = Ok result →
     result = [] ∧ is_open (raw_stream (search key o w).1.2) = false) ∧
  (∀ e, (search key o w).1.1 = Throw e →
     e = could_not_open ∨ e = sequence_not_found).
Proof.
  assert (∀ d bits e, ExtendibleHash.lookup global_depth d bits = Throw e →
                      e = sequence_not_found) as Hthrow.
  { intros d bits e. induction d as [|entry d IH]; cbn; [congruence|].
    by repeat case_match. }
  unfold ExtendibleHashFile.search, mbind, M_bind, SAFE_FILE_OPEN, lift, gets,
    read_bucket, close, mret, M_ret.
  repeat (case_match; simplify_eq/=); split_and!; try done;
    intros ? ?; simplify_eq; eauto.
  all: unfold ExtendibleHashFile.hash_sequence in *; by case_decide.
Qed.

(** *** The bucket and the block *)

(** X15.  For every record size the records of a bucket and its two
    [long] fields fit in [BLOCK_SIZE], the bucket object is no larger
    than a block, and one more record would not fit. *)
Theorem bucket_fits_block :
  (MAX_RECORDS_PER_BUCKET sizeof_RecordType * record_size + 16 ≤ BLOCK_SIZE)%nat ∧
  (sizeof_Bucket sizeof_RecordType ≤ BLOCK_SIZE)%nat ∧
  (BLOCK_SIZE < (MAX_RECORDS_PER_BUCKET sizeof_RecordType + 1) * record_size + 16)%nat.
Proof.
  pose proof record_size_pos as Hrs.
  unfold sizeof_Bucket, next_offset, records_offset, MAX_RECORDS_PER_BUCKET, BLOCK_SIZE.
  change (1024 - 2 * 8)%nat with 1008%nat.
  fold record_size.
  pose proof (Nat.Div0.mul_div_le 1008 record_size) as Hle.
  pose proof (Nat.mul_succ_div_gt 1008 record_size ltac:(lia)) as Hgt.
  set (m := (1008 / record_size)%nat) in *.
  assert (m * record_size = record_size * m)%nat as Hcomm by lia.
  set (a := (m * record_size)%nat) in *.
  pose proof (Nat.Div0.mul_div_le (8 + a + 7) 8) as H1.
  pose proof (Nat.mul_succ_div_gt (8 + a + 7) 8 ltac:(lia)) as H2.
  set (q := ((8 + a + 7) / 8)%nat) in *.
  split_and!; [lia | lia | nia].
Qed.
(** X16.  When the bucket object is shorter than the bytes [read]
    delivers (a record size that leaves a gap in the block, and a data
    file long enough), [search] on a constructed index writes past the
    end of [bucket]. *)
Theorem search_overruns_short_bucket (fileName : string) (primaryKey : bool)
        (w : world) (raw : list char) (key : KeyType) :
  (0 < global_depth)%nat →
  contents w (fileName +:+ "_index.ehashind") = [] →
  contents w (fileName +:+ ".ehash") = [] →
  files w !! fileName = Some raw →
  (sizeof_Bucket sizeof_RecordType < Nat.min BLOCK_SIZE (length raw))%nat →
  ∃ o w',
    new fileName primaryKey w = (Ok o, w') ∧
    (search key o w').1.1 = Undefined.
Proof.
  intros HD Hi Hh Hraw Hshort.
  destruct (new_from_scratch KeyType sizeof_RecordType index hash_function
              global_depth fileName primaryKey w raw HD Hi Hh Hraw)
    as (o & w' & Hnew & Hfiles & _ & Hdir & Hname & _ & _ & _ & Hclosed & _).
  exists o, w'. split; [done|].
  assert (files w' !! raw_file_name o = Some raw) as Hraw'.
  { by rewrite Hname, Hfiles, !touch_lookup_ne by auto with disk. }
  unfold ExtendibleHashFile.search, mbind, M_bind, SAFE_FILE_OPEN, lift, gets,
    read_bucket, close.
  remember (sizeof_Bucket sizeof_RecordType) as room eqn:Hroom.
  cbn. rewrite Hclosed, decide_True by (by rewrite Hraw').
  rewrite hash_sequence_defined by done. cbn. rewrite Hdir, lookup_create.
  unfold read_at. cbn. rewrite decide_False; [done|].
  unfold contents. rewrite Hraw'. cbn [default]. rewrite drop_0, length_take.
  unfold BLOCK_SIZE, id in *. lia.
Qed.

(** X17.  With a positive depth, entries in range and a record size
    that fills the block, no sequence of [search] and [insert] calls
    reaches an access out of bounds or a division by zero. *)
Theorem calls_on_wellformed_index_are_defined (cs : list (call KeyType))
        (o : t) (w : world) :
  (0 < global_depth)%nat →
  Forall (ExtendibleHash.entry_in_range global_depth) (hash_index o) →
  sizeof_Bucket sizeof_RecordType = BLOCK_SIZE →
  Forall (λ r, reply_defined r = true)
    (run_calls KeyType sizeof_RecordType index hash_function
       global_depth cs o w).1.1.
Proof. apply run_calls_defined. Qed.
End IndexCoverage.

(** ** Instances *)

Lemma lookup_overlong_depth_undefined_witness :
  ExtendibleHash.lookup 4
    [ {| ExtendibleHash.local_depth := 5;
         ExtendibleHash.sequence := [x30; x31; x30; x31; x00];
         ExtendibleHash.bucket_ref := 7 |} ]
    [x30; x31; x30; x31] = Undefined.
Proof.
  apply (lookup_overlong_depth_undefined 4).
  - reflexivity.
  - reflexivity.
  - cbn. lia.
  - intros i Hi. destruct i as [|[|[|[|i]]]]; [reflexivity.. | lia].
Defined.

Lemma lookup_reads_low_bits_only_witness :
  ExtendibleHash.lookup Scenario.depth Scenario.split_once [x30; x31; x30; x31]
  = ExtendibleHash.lookup Scenario.depth Scenario.split_once [x31; x31; x31; x31].
Proof.
  apply (lookup_reads_low_bits_only Scenario.depth Scenario.split_once 1).
  - reflexivity.
  - reflexivity.
  - exact split_once_in_range.
  - repeat apply Forall_cons_2; [cbn; lia.. | apply Forall_nil_2].
  - reflexivity.
Defined.

Lemma hash_sequence_is_bit_string_witness :
  ∃ bits,
    ExtendibleHashFile.hash_sequence Z Scenario.hash_of Scenario.depth 7 = Ok bits ∧
    ExtendibleHash.bit_string Scenario.depth bits.
Proof.
  apply (hash_sequence_is_bit_string Z Scenario.hash_of Scenario.depth 7).
  unfold Scenario.depth. lia.
Defined.

Lemma hash_sequence_high_bits_zero_witness :
  [x30; x30; x31; x31] !! 0%nat = Some chr0.
Proof.
  apply (hash_sequence_high_bits_zero Z Scenario.hash_of Scenario.depth 7
           [x30; x30; x31; x31] 0).
  - vm_compute. reflexivity.
  - unfold Scenario.depth. lia.
  - vm_compute. discriminate.
Defined.

Lemma constructor_outcomes_witness :
  match (Scenario.new "data" true Scenario.empty_dataset).1 with
  | Ok o =>
      contents Scenario.empty_dataset ("data" +:+ "_index.ehashind") = [] ∧
      contents Scenario.empty_dataset ("data" +:+ ".ehash") = [] ∧
      is_Some (files Scenario.empty_dataset !! "data") ∧
      ExtendibleHashFile.hash_index o = ExtendibleHash.create Scenario.depth
  | Throw e =>
      (e = corrupt_structure ∧
       (contents Scenario.empty_dataset ("data" +:+ "_index.ehashind") ≠ [] ∨
        contents Scenario.empty_dataset ("data" +:+ ".ehash") ≠ [])) ∨
      (e = could_not_open ∧
       contents Scenario.empty_dataset ("data" +:+ "_index.ehashind") = [] ∧
       contents Scenario.empty_dataset ("data" +:+ ".ehash") = [] ∧
       files Scenario.empty_dataset !! "data" = None)
  | Undefined => False
  end.
Proof.
  apply (constructor_outcomes Z Scenario.record_bytes Scenario.key_of
           Scenario.hash_of Scenario.depth "data" true Scenario.empty_dataset).
  unfold Scenario.depth. lia.
Defined.

Lemma constructor_without_data_file_witness :
  (∃ w',
     Scenario.new "nodir/data" true Scenario.empty_tree
       = (Throw could_not_open, w') ∧
     files w' !! "nodir/data" = None ∧
     console w' = console Scenario.empty_tree ∧
     w' = Scenario.empty_tree) ∧
  (∃ w',
     Scenario.new "data" true Scenario.empty_tree
       = (Throw could_not_open, w') ∧
     files w' !! "data" = None ∧
     console w' = console Scenario.empty_tree ∧
     files w' !! ("data" +:+ "_index.ehashind") = Some [] ∧
     files w' !! ("data" +:+ ".ehash") = Some []).
Proof.
  split.
  - apply (constructor_without_data_file Z Scenario.record_bytes Scenario.key_of
             Scenario.hash_of Scenario.depth "nodir/data" true Scenario.empty_tree).
    + vm_compute. reflexivity.
    + vm_compute. reflexivity.
    + vm_compute. reflexivity.
  - apply (constructor_without_data_file Z Scenario.record_bytes Scenario.key_of
             Scenario.hash_of Scenario.depth "data" true Scenario.empty_tree).
    + vm_compute. reflexivity.
    + vm_compute. reflexivity.
    + vm_compute. reflexivity.
Defined.

Lemma constructor_inserts_each_complete_record_witness :
  ∃ o w',
    ExtendibleHashFile.new Z 2 Scenario.key_of Scenario.hash_of Scenario.depth
      "data" true
      {| files := {[ "data" := [x01; x02; x03] ]};
         directories := ∅; console := [] |}
      = (Ok o, w') ∧
    console w' =
      console {| files := {[ "data" := [x01; x02; x03] ]};
                 directories := ∅; console := [] |}
      ++ replicate (length [x01; x02; x03] / ExtendibleHashFile.record_size 2) 0.
Proof.
  apply (constructor_inserts_each_complete_record Z 2 Scenario.key_of
           Scenario.hash_of Scenario.depth "data" true
           {| files := {[ "data" := [x01; x02; x03] ]};
              directories := ∅; console := [] |}
           [x01; x02; x03]).
  - unfold Scenario.depth. lia.
  - vm_compute. reflexivity.
  - vm_compute. reflexivity.
  - vm_compute. reflexivity.
Defined.

Lemma inserts_after_construction_witness :
  ∃ o w',
    Scenario.new "data" true Scenario.empty_dataset = (Ok o, w') ∧
    let '(replies, o'', w'') :=
      ExtendibleHashFile.run_calls Z Scenario.record_bytes Scenario.key_of
        Scenario.hash_of Scenario.depth
        (ExtendibleHashFile.call_insert Z <$> [[x01]; [x02]]) o w' in
    replies = (λ _, ExtendibleHashFile.reply_insert (Ok ())) <$> [[x01]; [x02]] ∧
    files w'' = files w' ∧
    console w'' = console w' ++ replicate (length [[x01]; [x02]]) 0.
Proof.
  apply (inserts_after_construction Z Scenario.record_bytes Scenario.key_of
           Scenario.hash_of Scenario.depth "data" true Scenario.empty_dataset
           [] [[x01]; [x02]]).
  - unfold Scenario.depth. lia.
  - vm_compute. reflexivity.
  - vm_compute. reflexivity.
  - vm_compute. reflexivity.
Defined.

Lemma search_overruns_short_bucket_witness :
  ∃ o w',
    ExtendibleHashFile.new Z 100 Scenario.key_of Scenario.hash_of Scenario.depth
      "data" true
      {| files := {[ "data" := replicate 1024 x00 ]};
         directories := ∅; console := [] |}
      = (Ok o, w') ∧
    (ExtendibleHashFile.search Z 100 Scenario.hash_of Scenario.depth 7 o w').1.1
      = Undefined.
Proof.
  apply (search_overruns_short_bucket Z 100 Scenario.key_of Scenario.hash_of
           Scenario.depth "data" true
           {| files := {[ "data" := replicate 1024 x00 ]};
              directories := ∅; console := [] |}
           (replicate 1024 x00) 7).
  - unfold Scenario.depth. lia.
  - vm_compute. reflexivity.
  - vm_compute. reflexivity.
  - vm_compute. reflexivity.
  - vm_compute. lia.
Defined.

Lemma calls_on_wellformed_index_are_defined_witness :
  Forall (λ r, ExtendibleHashFile.reply_defined r = true)
    (ExtendibleHashFile.run_calls Z Scenario.record_bytes Scenario.key_of
       Scenario.hash_of Scenario.depth
       [ExtendibleHashFile.call_search Z 7; ExtendibleHashFile.call_insert Z [x01]]
       (ExtendibleHashFile.set_hash_index
          (ExtendibleHash.create Scenario.depth)
          (ExtendibleHashFile.blank "data" true))
       Scenario.empty_dataset).1.1.
Proof.
  apply (calls_on_wellformed_index_are_defined Z Scenario.record_bytes
           Scenario.key_of Scenario.hash_of Scenario.depth).
  - unfold Scenario.depth. lia.
  - exact (proj1 (create_total Scenario.depth)).
  - vm_compute. reflexivity.
Defined.
